(** * LuaCppMsg: a message queue between C++ threads and one Lua state

    A shallow embedding of [include/LuaCppMsg.hpp]: the [Item] variant and its
    recursive [Map], the [Message] / [Nested] accessors, the [CopyVisitor]
    that duplicates [CopyPtr<T>*] payloads at push time, and the [Queue]
    itself (push, pop, size, bind).

    Conventions of the embedding.
    - The queue is instantiated as [Queue<T, CopyPtr<T>*>], the shape used by
      the "Unsafe pointers" scenario of the test suite: one extension type
      [T] held by value and the wrapped pointer to it.
    - [std::unordered_map<Key, Item>] is a [gmap Key Item]: unique keys,
      equality independent of insertion order.
    - A [CopyPtr<T>*] is an address into the memory of the other side (the
      Lua state or the caller); that memory is a finite map from addresses to
      live objects of type [T].  Dereferencing an address that holds no live
      object is undefined behaviour.
    - C++ exceptions are values: [boost::bad_get], [std::out_of_range], and
      whatever the copy constructor of [T] throws.
    - Every public operation of [Queue] takes the queue's mutex for its whole
      body, so an operation is one atomic transition on the queue's state.
    - Moving or implicitly copying an [Item] preserves its value; the only
      copy constructor call that is modelled as able to fail is the one
      [CopyVisitor] writes out, [T( *((T* )to_copy))].  This holds for the
      visitors, [push], [push_lua] and [pop] as first defined.  The
      definitions named [..._copying] add the calls of the copy constructor
      that [push(const Item&)] and [push_lua] make on extension objects held
      by value; statements about copy failure use those.
    - An [unordered_map] is walked in an order the code does not fix; the
      embedding walks the keys in one order.  The order can only decide
      which of two failing entries ends a visit, so statements about failing
      visits are made for values whose addresses are all live.
    - A [double] is a binary64 [float]; it is only stored and handed back.
      An [unsigned] is an integer modulo [2^32]. *)

From stdpp Require Import gmap strings list fin_maps.
From Stdlib Require Import PrimFloat.

Set Warnings "-register-all".
Set Warnings "-clear-no-such-hyp".

Module LuaCppMsg.

(** ** Keys: [boost::variant<Int, Str>] *)

Inductive Key : Type :=
| KInt (i : Z)
| KStr (s : string).

#[global] Instance Key_eq_dec : EqDecision Key.
Proof. solve_decision. Defined.

Definition Key_to_sum (k : Key) : Z + string :=
  match k with KInt i => inl i | KStr s => inr s end.

Definition Key_of_sum (x : Z + string) : Key :=
  match x with inl i => KInt i | inr s => KStr s end.

#[global] Instance Key_countable : Countable Key.
Proof.
  refine (inj_countable' Key_to_sum Key_of_sum _).
  by intros [].
Defined.

(** ** Outcomes of a C++ computation *)

(** The exceptions that leave the library's functions. *)
Inductive exn : Type :=
| bad_get        (* boost::get<T> on a variant holding another type *)
| out_of_range   (* std::unordered_map::at on a missing key *)
| copy_failed.   (* thrown by the copy constructor of the extension type *)

#[global] Instance exn_eq_dec : EqDecision exn.
Proof. solve_decision. Defined.

(** A value, an exception, or undefined behaviour. *)
Inductive res (A : Type) : Type :=
| Ok (a : A)
| Throw (e : exn)
| Undefined.

Arguments Ok {A} a.
Arguments Throw {A} e.
Arguments Undefined {A}.

#[global] Instance res_ret : MRet res := fun A a => Ok a.

#[global] Instance res_bind : MBind res := fun A B k r =>
  match r with
  | Ok a => k a
  | Throw e => Throw e
  | Undefined => Undefined
  end.

#[global] Instance res_fmap : FMap res := fun A B f r =>
  match r with
  | Ok a => Ok (f a)
  | Throw e => Throw e
  | Undefined => Undefined
  end.

(** Addresses of objects living outside the queue. *)
Abbreviation addr := N.

(** A pointer to the runtime, [lua_State*]. *)
Abbreviation lua_State := N.

(** ** The extension type of the test suite

    [struct CustomType { int val; int* vals; }] of [tests/test.cpp].  [vals]
    owns an array of one [int]; [vals_0] is the content of that array. *)
Record CustomType : Type := MkCustomType { val : Z; vals_0 : Z }.

(** [CustomType(int val_)] *)
Definition CustomType_new (val_ : Z) : CustomType := MkCustomType val_ val_.

(** [CustomType(const CustomType& other_)]: copies [val], allocates a fresh
    array with [new int[1]] and copies [vals[0]] into it.  [free_store] says
    whether that allocation succeeds; when it does not, [new] throws
    [std::bad_alloc]. *)
Definition CustomType_copy (free_store : bool) (other_ : CustomType) : option CustomType :=
  if free_store then Some (MkCustomType (val other_) (vals_0 other_)) else None.

(** ** The first version of the queue: [Queue.hpp] and [Queue.cpp]

    A queue of [Message::Item] without mutex, optional or copy visitor, and
    with one [LuaContext] shared by all queues through the static member
    [Queue::lua]. *)
Module QueueCpp.

(** [Message::Item]: [variant<Bool, Num, Int, Str, Map>]. *)
Inductive Item : Type :=
| Bool (b : bool)
| Num (d : float)
| Int (i : Z)
| Str (s : string)
| Map (m : gmap Key Item).

Record Message : Type := Msg { item : Item }.

Record Queue : Type := MkQueue { m_queue : list Item }.

(** A [LuaContext]: built on a Lua state of its own ([new LuaContext()]) or
    on a given one ([new LuaContext(L)]). *)
Inductive LuaContext : Type :=
| own_state
| on_state (L : lua_State).

(** The static members: [Queue::lua], null until a bind, and the functions
    registered in it, oldest first. *)
Record Static : Type := MkStatic {
  lua : option LuaContext;
  registered : list string
}.

(** [Queue::Queue()] *)
Definition Queue_new : Queue := MkQueue [].

(** The statics before any bind. *)
Definition Static_init : Static := MkStatic None [].

(** [unsigned Queue::size()] *)
Definition size (q : Queue) : Z :=
  (Z.of_nat (length (m_queue q)) `mod` 2 ^ 32)%Z.

(** [void Queue::push(const Message& msg_)] *)
Definition push_const_ref (msg_ : Message) (q : Queue) : Queue :=
  MkQueue (m_queue q ++ [item msg_]).

(** [void Queue::push(Message&& msg_)] *)
Definition push_rvalue (msg_ : Message) (q : Queue) : Queue :=
  MkQueue (m_queue q ++ [item msg_]).

(** [Message Queue::pop()]: [front()] of an empty [std::queue] is undefined
    behaviour, and nothing checks for it. *)
Definition pop (q : Queue) : res (Message * Queue) :=
  match m_queue q with
  | [] => Undefined
  | front :: rest => Ok (Msg front, MkQueue rest)
  end.

(** [void Queue::push_lua(Message::Item msg_)] *)
Definition push_lua (msg_ : Item) (q : Queue) : Queue :=
  MkQueue (m_queue q ++ [msg_]).

(** [Message::Item Queue::pop_lua()] *)
Definition pop_lua (q : Queue) : res (Item * Queue) :=
  match m_queue q with
  | [] => Undefined
  | front :: rest => Ok (front, MkQueue rest)
  end.

(** [void Queue::bind(LuaContext* L)] *)
Definition bind_context (L : LuaContext) (st : Static) : Static :=
  match lua st with
  | Some _ => st
  | None => MkStatic (Some L) (registered st ++ ["size"; "push"; "pop"])
  end.

(** [void Queue::bind(lua_State* L)] *)
Definition bind_state (L : lua_State) (st : Static) : Static :=
  match lua st with
  | Some _ => st
  | None => bind_context (on_state L) st
  end.

(** [void Queue::bind()] *)
Definition bind (st : Static) : Static :=
  match lua st with
  | Some _ => st
  | None => bind_context own_state st
  end.

(** A call of one of the three [bind] overloads. *)
Inductive bind_call : Type :=
| call_bind
| call_bind_state (L : lua_State)
| call_bind_context (L : LuaContext).

Definition do_bind (st : Static) (c : bind_call) : Static :=
  match c with
  | call_bind => bind st
  | call_bind_state L => bind_state L st
  | call_bind_context L => bind_context L st
  end.

(** The context a bind call would install. *)
Definition context_of (c : bind_call) : LuaContext :=
  match c with
  | call_bind => own_state
  | call_bind_state L => on_state L
  | call_bind_context L => L
  end.

End QueueCpp.

Section Extension.

(** The extension type [T] of [CustomTypes...], and its copy constructor:
    [None] when the constructor throws. *)
Context {T : Type}.
Variable copy_T : T -> option T.

(** ** Items *)

(** [Item]: the recursive variant [Bool | Num | Str | T | CopyPtr<T>* | Map]. *)
Inductive Item : Type :=
| Bool (b : bool)
| Num (d : float)
| Str (s : string)
| Custom (t : T)
| CopyPtr (p : addr)
| Map (m : gmap Key Item).

(** The alternative a variant currently holds ([which()]). *)
Inductive Tag : Type := TBool | TNum | TStr | TCustom | TCopyPtr | TMap.

#[global] Instance Tag_eq_dec : EqDecision Tag.
Proof. solve_decision. Defined.

Definition tag_of (i : Item) : Tag :=
  match i with
  | Bool _ => TBool
  | Num _ => TNum
  | Str _ => TStr
  | Custom _ => TCustom
  | CopyPtr _ => TCopyPtr
  | Map _ => TMap
  end.

(** The C++ type named by a tag. *)
Definition payload (t : Tag) : Type :=
  match t with
  | TBool => bool
  | TNum => float
  | TStr => string
  | TCustom => T
  | TCopyPtr => addr
  | TMap => gmap Key Item
  end.

(** The converting constructor of the variant. *)
Definition inject (t : Tag) : payload t -> Item :=
  match t with
  | TBool => Bool
  | TNum => Num
  | TStr => Str
  | TCustom => Custom
  | TCopyPtr => CopyPtr
  | TMap => Map
  end.

(** [boost::get<U>(item)]: the payload when [item] holds a [U], otherwise
    [boost::bad_get]. *)
Definition boost_get (t : Tag) (i : Item) : res (payload t) :=
  match t return res (payload t) with
  | TBool => match i with Bool b => Ok b | _ => Throw bad_get end
  | TNum => match i with Num d => Ok d | _ => Throw bad_get end
  | TStr => match i with Str s => Ok s | _ => Throw bad_get end
  | TCustom => match i with Custom c => Ok c | _ => Throw bad_get end
  | TCopyPtr => match i with CopyPtr p => Ok p | _ => Throw bad_get end
  | TMap => match i with Map m => Ok m | _ => Throw bad_get end
  end.

(** [std::unordered_map::at]. *)
Definition at_ (m : gmap Key Item) (k : Key) : res Item :=
  match m !! k with
  | Some v => Ok v
  | None => Throw out_of_range
  end.

(** ** Message and Nested *)

(** [Nested] points at an [Item] inside a message; the embedding keeps the
    item it points at. *)
Record Nested : Type := MkNested { m_pitem : Item }.

Record Message : Type := Msg { m_item : Item }.

(** [Nested::as<U>()] *)
Definition Nested_as (t : Tag) (n : Nested) : res (payload t) :=
  boost_get t (m_pitem n).

(** [Nested::get(const Key)] *)
Definition Nested_get (key_ : Key) (n : Nested) : res Nested :=
  map ← boost_get TMap (m_pitem n);
  item ← at_ map key_;
  Ok (MkNested item).

(** [Message::as<U>()] *)
Definition Message_as (t : Tag) (msg : Message) : res (payload t) :=
  boost_get t (m_item msg).

(** [Message::get(const Key)] *)
Definition Message_get (key_ : Key) (msg : Message) : res Nested :=
  map ← boost_get TMap (m_item msg);
  item ← at_ map key_;
  Ok (MkNested item).

(** [get(const char* )] forwards to [get(Str(key_))]. *)
Definition Message_get_str (key_ : string) (msg : Message) : res Nested :=
  Message_get (KStr key_) msg.

Definition Nested_get_str (key_ : string) (n : Nested) : res Nested :=
  Nested_get (KStr key_) n.

(** ** Structure of items *)

(** Nesting depth of maps, the measure for induction over items. *)
Fixpoint depth (i : Item) : nat :=
  match i with
  | Map m => S (map_fold (fun _ v acc => depth v `max` acc) 0 m)
  | _ => 0
  end.

(** [owned i]: no [CopyPtr<T>*] alternative at the root of [i] or at any
    depth below it. *)
Fixpoint owned (i : Item) : bool :=
  match i with
  | CopyPtr _ => false
  | Map m => map_fold (fun _ v acc => owned v && acc) true m
  | _ => true
  end.

(** The addresses an item refers to. *)
Fixpoint refs (i : Item) : gset addr :=
  match i with
  | CopyPtr p => {[ p ]}
  | Map m => map_fold (fun _ v acc => refs v ∪ acc) ∅ m
  | _ => ∅
  end.

(** ** The copy visitor *)

(** [T( *((T* )to_copy))]: read the object behind the pointer in the memory
    [h] of the other side and copy-construct from it. *)
Definition copy_construct (h : gmap addr T) (to_copy : addr) : res T :=
  match h !! to_copy with
  | None => Undefined
  | Some obj =>
      match copy_T obj with
      | Some c => Ok c
      | None => Throw copy_failed
      end
  end.

(** The loop [for (auto& item : to_copy) item.second = visit(item.second)]:
    every entry of [to_copy] is overwritten in place with its visited value.
    The first entry whose visit does not return ends the loop. *)
Definition visit_entry (visit : Item -> res Item)
    (k : Key) (v : Item) (acc : res (gmap Key Item)) : res (gmap Key Item) :=
  cur ← acc; v' ← visit v; Ok (<[k := v']> cur).

Definition visit_entries (visit : Item -> res Item) (to_copy : gmap Key Item)
  : res (gmap Key Item) :=
  map_fold (visit_entry visit) (Ok to_copy) to_copy.

(** [boost::apply_visitor(CopyVisitor(), item)] on a non-const [item].
    The visitor receives the payload as a non-const lvalue, so a [Map]
    selects [operator()(Map&)], a [CopyPtr<T>*] selects
    [operator()(CopyPtr<T>* )] and every other payload selects the
    pass-through template [operator()(U&)]. *)
Fixpoint CopyVisitor (h : gmap addr T) (item : Item) : res Item :=
  match item with
  | CopyPtr to_copy => c ← copy_construct h to_copy; Ok (Custom c)
  | Map to_copy => m ← visit_entries (CopyVisitor h) to_copy; Ok (Map m)
  | to_copy => Ok to_copy
  end.

(** [boost::apply_visitor(CopyVisitor(), item)] on a [const] item, as in
    [push(const Item&)].  The visitor receives the payload as a const lvalue.
    [operator()(Map&)] cannot bind a [const Map], so a map selects the
    pass-through template with [U = const Map] and is returned as it is,
    its entries unvisited.  A [CopyPtr<T>* const] still selects
    [operator()(CopyPtr<T>* )], which takes its argument by value. *)
Definition CopyVisitor_const (h : gmap addr T) (item : Item) : res Item :=
  match item with
  | CopyPtr to_copy => c ← copy_construct h to_copy; Ok (Custom c)
  | to_copy => Ok to_copy
  end.

(** ** The queue *)

Record Queue : Type := MkQueue {
  m_lua : option lua_State;     (* the LuaContext, wrapping the state it was built on *)
  m_queue : list Item           (* std::queue<Item>: front is the head *)
}.

(** [Queue()] *)
Definition Queue_new : Queue := MkQueue None [].

(** What the runtime side records: the static set [bound_states()] and the
    [registerFunction] calls each Lua state has received, oldest first. *)
Record Runtime : Type := MkRuntime {
  bound_states : gset lua_State;
  registered : list (lua_State * string)
}.

(** How a call that may throw ends: it returns with the queue in state [q],
    it throws [e] leaving the queue in state [q], or its behaviour is
    undefined. *)
Inductive run : Type :=
| Returns (q : Queue)
| Raises (e : exn) (q : Queue)
| Undef.

(** [unsigned size_unsafe()]: the [size_t] length converted to [unsigned]. *)
Definition size_unsafe (q : Queue) : Z :=
  (Z.of_nat (length (m_queue q)) `mod` 2 ^ 32)%Z.

(** [unsigned size()] *)
Definition size (q : Queue) : Z := size_unsafe q.

(** [void push(const char* msg_)] *)
Definition push_cstr (msg_ : string) (q : Queue) : run :=
  Returns (MkQueue (m_lua q) (m_queue q ++ [Str msg_])).

(** The two statements after the lock is taken, for a visitor result. *)
Definition enqueue (visited : res Item) (q : Queue) : run :=
  match visited with
  | Ok item => Returns (MkQueue (m_lua q) (m_queue q ++ [item]))
  | Throw e => Raises e q
  | Undefined => Undef
  end.

(** [void push(const Item& msg_)] *)
Definition push_const_ref (h : gmap addr T) (msg_ : Item) (q : Queue) : run :=
  enqueue (CopyVisitor_const h msg_) q.

(** [void push(Item&& msg_)] *)
Definition push_rvalue (h : gmap addr T) (msg_ : Item) (q : Queue) : run :=
  enqueue (CopyVisitor h msg_) q.

(** [void push_lua(Item msg_)] *)
Definition push_lua (h : gmap addr T) (msg_ : Item) (q : Queue) : run :=
  enqueue (CopyVisitor h msg_) q.

(** [Opt pop()]: the optional message and the queue afterwards. *)
Definition pop (q : Queue) : option Message * Queue :=
  if decide (size_unsafe q = 0%Z) then (None, q)
  else match m_queue q with
       | front :: rest => (Some (Msg front), MkQueue (m_lua q) rest)
       | [] => (None, q)        (* not reached: the size is not zero *)
       end.

(** [boost::optional<Item> pop_lua()] *)
Definition pop_lua (q : Queue) : option Item * Queue :=
  if decide (size_unsafe q = 0%Z) then (None, q)
  else match m_queue q with
       | front :: rest => (Some front, MkQueue (m_lua q) rest)
       | [] => (None, q)        (* not reached: the size is not zero *)
       end.

(** [LuaContext::registerFunction(name, ...)] on the state [L]. *)
Definition registerFunction (L : lua_State) (name : string) (rt : Runtime) : Runtime :=
  MkRuntime (bound_states rt) (registered rt ++ [(L, name)]).

(** [void bind(lua_State* L)] *)
Definition bind (L : lua_State) (st : Queue * Runtime) : Queue * Runtime :=
  let q := MkQueue (Some L) (m_queue st.1) in
  let rt := st.2 in
  if decide (L ∈ bound_states rt) then (q, rt)
  else
    let rt := registerFunction L "size" rt in
    let rt := registerFunction L "push" rt in
    let rt := registerFunction L "pop" rt in
    (q, MkRuntime ({[ L ]} ∪ bound_states rt) (registered rt)).

(** [Queue(lua_State* plua)] *)
Definition Queue_bound (plua : lua_State) (rt : Runtime) : Queue * Runtime :=
  bind plua (Queue_new, rt).

(** Which [push] overload a call [queue.push(x)] selects: an lvalue [Item]
    can only bind to [const Item&]; an rvalue (a temporary, also one
    converted from a payload) prefers [Item&&]. *)
Inductive value_category : Type := lvalue | rvalue.

Definition apply_visitor (c : value_category) : gmap addr T → Item → res Item :=
  match c with
  | lvalue => CopyVisitor_const
  | rvalue => CopyVisitor
  end.

Definition push (c : value_category) : gmap addr T → Item → Queue → run :=
  match c with
  | lvalue => push_const_ref
  | rvalue => push_rvalue
  end.

(** The built-in value kinds: [Bool], [Num] and [Str]. *)
Definition primitive (t : Tag) : bool :=
  match t with
  | TBool | TNum | TStr => true
  | TCustom | TCopyPtr | TMap => false
  end.

(** ** Extension objects held by value, and the copies made of them

    The definitions above take the moves, copies and assignments the
    library makes of an extension object it holds by value to leave the
    object's value as it is.  The definitions below spell out the calls of the
    copy constructor of [T] on such objects, each of which can throw. *)

(** The extension objects an item holds by value, at its root or below. *)
Fixpoint payloads (i : Item) : list T :=
  match i with
  | Custom t => [t]
  | Map m => map_fold (fun _ v acc => payloads v ++ acc) [] m
  | _ => []
  end.

(** [no_payload i]: no extension object held by value at the root of [i] or
    at any depth below it. *)
Fixpoint no_payload (i : Item) : bool :=
  match i with
  | Custom _ => false
  | Map m => map_fold (fun _ v acc => no_payload v && acc) true m
  | _ => true
  end.

(** [plain i]: [i] is made of [Bool], [Num], [Str] and maps of these only. *)
Definition plain (i : Item) : bool := owned i && no_payload i.

(** The copy of a map: a new map that receives a copy of every entry. *)
Definition copy_entries (copy : Item -> res Item) (m : gmap Key Item)
  : res (gmap Key Item) :=
  map_fold (visit_entry copy) (Ok ∅) m.

(** [Item(const Item&)], the copy constructor of the variant: it copies the
    payload it holds, an extension object with the copy constructor of [T],
    a map entry by entry, a [CopyPtr<T>*] as the pointer it is. *)
Fixpoint Item_copy (i : Item) : res Item :=
  match i with
  | Custom t =>
      match copy_T t with
      | Some c => Ok (Custom c)
      | None => Throw copy_failed
      end
  | Map m => m' ← copy_entries Item_copy m; Ok (Map m')
  | other => Ok other
  end.

(** [boost::apply_visitor(CopyVisitor(), item)] on a [const] item, with the
    copy the pass-through makes: for [U = const X] the statement
    [return std::move(to_copy)] builds the result from a [const X&&], that
    is with the copy constructor of [X]. *)
Definition CopyVisitor_const_copying (h : gmap addr T) (item : Item) : res Item :=
  match item with
  | CopyPtr to_copy => c ← copy_construct h to_copy; Ok (Custom c)
  | to_copy => Item_copy to_copy
  end.



(** ** Sequences of calls *)

(** One call on a queue.  A pushing call carries the outside memory as it
    is when the call runs. *)
Inductive call : Type :=
| call_push (c : value_category) (h : gmap addr T) (msg_ : Item)
| call_push_cstr (msg_ : string)
| call_push_lua (h : gmap addr T) (msg_ : Item)
| call_pop
| call_pop_lua
| call_size.

(** What a call leaves: the queue after it ([Raises] leaves the queue it
    names), or nothing when its behaviour is undefined. *)
Definition after_push (r : run) : option Queue :=
  match r with
  | Returns q => Some q
  | Raises _ q => Some q
  | Undef => None
  end.

(** A call on the queue: the item it hands to its caller, if any, and the
    queue afterwards; [None] when the call's behaviour is undefined. *)
Definition do_call (o : call) (q : Queue) : option (option Item * Queue) :=
  match o with
  | call_push c h msg_ => q' ← after_push (push c h msg_ q); Some (None, q')
  | call_push_cstr msg_ => q' ← after_push (push_cstr msg_ q); Some (None, q')
  | call_push_lua h msg_ => q' ← after_push (push_lua h msg_ q); Some (None, q')
  | call_pop => Some (m_item <$> (pop q).1, (pop q).2)
  | call_pop_lua => Some (pop_lua q)
  | call_size => Some (None, q)
  end.

(** Calls made one after the other: the items handed out, oldest first,
    and the queue at the end. *)
Fixpoint do_calls (os : list call) (q : Queue) : option (list Item * Queue) :=
  match os with
  | [] => Some ([], q)
  | o :: os =>
      '(x, q1) ← do_call o q;
      '(xs, q2) ← do_calls os q1;
      Some (option_list x ++ xs, q2)
  end.

(** A call is defined unless its visitor dereferences an address that holds
    no live object. *)
Definition call_defined (o : call) : bool :=
  match o with
  | call_push c h msg_ =>
      match apply_visitor c h msg_ with Undefined => false | _ => true end
  | call_push_lua h msg_ =>
      match CopyVisitor h msg_ with Undefined => false | _ => true end
  | call_push_cstr _ | call_pop | call_pop_lua | call_size => true
  end.

(** The value a pushing call is given. *)
Definition pushed (o : call) : list Item :=
  match o with
  | call_push _ _ msg_ => [msg_]
  | call_push_cstr msg_ => [Str msg_]
  | call_push_lua _ msg_ => [msg_]
  | call_pop | call_pop_lua | call_size => []
  end.

(** Every value the call is given is plain. *)
Definition call_plain (o : call) : bool := forallb plain (pushed o).

(** The item a pushing call appends when it returns. *)
Definition stored_by (o : call) : list Item :=
  match o with
  | call_push c h msg_ =>
      match apply_visitor c h msg_ with Ok item => [item] | _ => [] end
  | call_push_cstr msg_ => [Str msg_]
  | call_push_lua h msg_ =>
      match CopyVisitor h msg_ with Ok item => [item] | _ => [] end
  | call_pop | call_pop_lua | call_size => []
  end.

(** ** Induction over items *)

Lemma depth_lookup (m : gmap Key Item) (k : Key) (v : Item) :
  m !! k = Some v → depth v < depth (Map m).
Proof.
  cbn [depth]. revert k v.
  apply (map_fold_weak_ind
           (fun (r : nat) (m : gmap Key Item) => ∀ k v, m !! k = Some v → depth v < S r)).
  - intros k v Hk. by rewrite lookup_empty in Hk.
  - intros i x m' r Hfresh IH k v Hk.
    destruct (decide (i = k)) as [->|Hne].
    + rewrite lookup_insert_eq in Hk. injection Hk as ->. lia.
    + rewrite lookup_insert_ne in Hk by done. specialize (IH k v Hk). lia.
Qed.

(** Induction on items with the hypothesis available for every entry of a
    map. *)
Lemma Item_map_ind (P : Item → Prop) :
  (∀ b, P (Bool b)) →
  (∀ d, P (Num d)) →
  (∀ s, P (Str s)) →
  (∀ t, P (Custom t)) →
  (∀ p, P (CopyPtr p)) →
  (∀ m, map_Forall (fun _ v => P v) m → P (Map m)) →
  ∀ i, P i.
Proof.
  intros HB HN HS HC HP HM i.
  remember (depth i) as n eqn:Hn.
  revert i Hn. induction n as [n IH] using lt_wf_ind.
  intros [b|d|s|t|p|m] Hn; auto.
  apply HM. intros k v Hk.
  apply (IH (depth v)); [|done].
  rewrite Hn. by eapply depth_lookup.
Qed.

Lemma owned_Map (m : gmap Key Item) :
  owned (Map m) = true ↔ map_Forall (fun _ v => owned v = true) m.
Proof.
  cbn [owned].
  apply (map_fold_weak_ind
           (fun (r : bool) (m : gmap Key Item) =>
              r = true ↔ map_Forall (fun _ v => owned v = true) m)).
  - split; [intros _; apply map_Forall_empty | done].
  - intros i x m' r Hfresh IH.
    rewrite map_Forall_insert by done.
    rewrite andb_true_iff. by rewrite IH.
Qed.

Lemma refs_Map (m : gmap Key Item) (p : addr) :
  p ∈ refs (Map m) ↔ ∃ k v, m !! k = Some v ∧ p ∈ refs v.
Proof.
  cbn [refs].
  apply (map_fold_weak_ind
           (fun (r : gset addr) (m : gmap Key Item) =>
              p ∈ r ↔ ∃ k v, m !! k = Some v ∧ p ∈ refs v)).
  - split; [set_solver|]. intros (k & v & Hk & _). by rewrite lookup_empty in Hk.
  - intros i x m' r Hfresh IH.
    rewrite elem_of_union, IH. split.
    + intros [Hx | (k & v & Hk & Hp)].
      * exists i, x. by rewrite lookup_insert_eq.
      * exists k, v. split; [|done].
        rewrite lookup_insert_ne; [done|]. intros ->. congruence.
    + intros (k & v & Hk & Hp).
      destruct (decide (i = k)) as [->|Hne].
      * rewrite lookup_insert_eq in Hk. injection Hk as ->. by left.
      * rewrite lookup_insert_ne in Hk by done. right. by exists k, v.
Qed.

(** An item without [CopyPtr] nodes refers to no outside address. *)
Lemma owned_refs (i : Item) : owned i = true → refs i = ∅.
Proof.
  induction i as [b|d|s|t|p|m IH] using Item_map_ind; try done.
  intros Hm%owned_Map.
  apply set_eq. intros p. rewrite refs_Map. split; [|set_solver].
  intros (k & v & Hk & Hp).
  rewrite (IH k v Hk (Hm k v Hk)) in Hp. set_solver.
Qed.

(** ** The loop over the entries of a map *)

Section visit_entries.
Variable visit : Item → res Item.

(** When the loop returns, every entry holds its visited value and no
    other key has appeared. *)
Lemma visit_fold_Ok (base m r : gmap Key Item) :
  map_fold (visit_entry visit) (Ok base) m = Ok r →
  (∀ k v, m !! k = Some v → ∃ v', visit v = Ok v' ∧ r !! k = Some v')
  ∧ (∀ k, m !! k = None → r !! k = base !! k).
Proof.
  revert r.
  apply (map_fold_weak_ind
           (fun (acc : res (gmap Key Item)) (m : gmap Key Item) =>
              ∀ r, acc = Ok r →
                (∀ k v, m !! k = Some v → ∃ v', visit v = Ok v' ∧ r !! k = Some v')
                ∧ (∀ k, m !! k = None → r !! k = base !! k))).
  - intros r [= <-]. split; [|done].
    intros k v Hk. by rewrite lookup_empty in Hk.
  - intros i x m' acc Hfresh IH r Hr.
    unfold visit_entry in Hr. destruct acc as [cur| |]; [|done..].
    cbn in Hr. destruct (visit x) as [x'| |] eqn:Hx; [|done..].
    cbn in Hr. injection Hr as <-.
    destruct (IH cur eq_refl) as [IHin IHout]. split.
    + intros k v Hk. destruct (decide (i = k)) as [->|Hne].
      * rewrite lookup_insert_eq in Hk. injection Hk as ->.
        exists x'. by rewrite lookup_insert_eq.
      * rewrite lookup_insert_ne in Hk by done.
        rewrite lookup_insert_ne by done. by apply IHin.
    + intros k Hk. apply lookup_insert_None in Hk as [Hk Hne].
      rewrite lookup_insert_ne by done. by apply IHout.
Qed.

(** The loop returns when the visit of every entry returns. *)
Lemma visit_fold_returns (base m : gmap Key Item) :
  (∀ k v, m !! k = Some v → ∃ v', visit v = Ok v') →
  ∃ r, map_fold (visit_entry visit) (Ok base) m = Ok r.
Proof.
  apply (map_fold_weak_ind
           (fun (acc : res (gmap Key Item)) (m : gmap Key Item) =>
              (∀ k v, m !! k = Some v → ∃ v', visit v = Ok v') →
              ∃ r, acc = Ok r)).
  - intros _. by exists base.
  - intros i x m' acc Hfresh IH Hall.
    destruct IH as [cur ->].
    { intros k v Hk. apply (Hall k v).
      rewrite lookup_insert_ne; [done|]. intros ->. congruence. }
    destruct (Hall i x) as [x' Hx]; [by rewrite lookup_insert_eq|].
    exists (<[i := x']> cur). unfold visit_entry. cbn. by rewrite Hx.
Qed.

(** A loop that ends by an exception or in undefined behaviour does so in
    the visit of one of the entries. *)
Lemma visit_fold_fails (base m : gmap Key Item) :
  match map_fold (visit_entry visit) (Ok base) m with
  | Ok _ => True
  | Throw e => ∃ k v, m !! k = Some v ∧ visit v = Throw e
  | Undefined => ∃ k v, m !! k = Some v ∧ visit v = Undefined
  end.
Proof.
  apply (map_fold_weak_ind
           (fun (acc : res (gmap Key Item)) (m : gmap Key Item) =>
              match acc with
              | Ok _ => True
              | Throw e => ∃ k v, m !! k = Some v ∧ visit v = Throw e
              | Undefined => ∃ k v, m !! k = Some v ∧ visit v = Undefined
              end)); [done|].
  intros i x m' acc Hfresh IH.
  assert (∀ k v, m' !! k = Some v → <[i := x]> m' !! k = Some v) as Hkeep.
  { intros k v Hk. rewrite lookup_insert_ne; [done|]. intros ->. congruence. }
  destruct acc as [cur|e|]; unfold visit_entry; cbn.
  - destruct (visit x) as [x'|e|] eqn:Hx; cbn; [done|..];
      exists i, x; by rewrite lookup_insert_eq.
  - destruct IH as (k & v & Hk & Hv). exists k, v. eauto.
  - destruct IH as (k & v & Hk & Hv). exists k, v. eauto.
Qed.

Lemma visit_entries_Ok (m r : gmap Key Item) :
  visit_entries visit m = Ok r →
  ∀ k, match m !! k with
       | Some v => ∃ v', visit v = Ok v' ∧ r !! k = Some v'
       | None => r !! k = None
       end.
Proof.
  intros [Hin Hout]%visit_fold_Ok k.
  destruct (m !! k) as [v|] eqn:Hk; [by apply Hin|].
  by rewrite Hout.
Qed.

Lemma visit_entries_returns (m : gmap Key Item) :
  (∀ k v, m !! k = Some v → ∃ v', visit v = Ok v') →
  ∃ r, visit_entries visit m = Ok r.
Proof. apply visit_fold_returns. Qed.

(** Entries that the visit leaves alone leave the map alone. *)
Lemma visit_entries_id (m : gmap Key Item) :
  (∀ k v, m !! k = Some v → visit v = Ok v) →
  visit_entries visit m = Ok m.
Proof.
  intros Hid.
  destruct (visit_entries_returns m) as [r Hr]; [naive_solver|].
  rewrite Hr. f_equal. apply map_eq. intros k.
  pose proof (visit_entries_Ok m r Hr k) as Hk.
  destruct (m !! k) as [v|] eqn:Hmk; [|done].
  destruct Hk as (v' & Hv & ->). rewrite (Hid k v Hmk) in Hv. congruence.
Qed.

Lemma visit_entries_Throw (m : gmap Key Item) (e : exn) :
  visit_entries visit m = Throw e →
  ∃ k v, m !! k = Some v ∧ visit v = Throw e.
Proof.
  intros H. pose proof (visit_fold_fails m m) as Hf.
  unfold visit_entries in H. by rewrite H in Hf.
Qed.


End visit_entries.

(** ** What the copy visitor does *)

Lemma CopyVisitor_CopyPtr (h : gmap addr T) (p : addr) (i' : Item) :
  CopyVisitor h (CopyPtr p) = Ok i' →
  ∃ obj c, h !! p = Some obj ∧ copy_T obj = Some c ∧ i' = Custom c.
Proof.
  simpl. unfold copy_construct.
  destruct (h !! p) as [obj|]; [|done].
  destruct (copy_T obj) as [c|] eqn:Hc; [|done].
  simpl. intros [= <-]. by exists obj, c.
Qed.

Lemma CopyVisitor_Map (h : gmap addr T) (m : gmap Key Item) (i' : Item) :
  CopyVisitor h (Map m) = Ok i' →
  ∃ m', i' = Map m'
        ∧ ∀ k, match m !! k with
               | Some v => ∃ v', CopyVisitor h v = Ok v' ∧ m' !! k = Some v'
               | None => m' !! k = None
               end.
Proof.
  cbn [CopyVisitor].
  destruct (visit_entries (CopyVisitor h) m) as [m'| |] eqn:Hm; [|done..].
  simpl. intros [= <-]. exists m'. split; [done|].
  by apply visit_entries_Ok.
Qed.

(** The visitor leaves an item without [CopyPtr] nodes as it is. *)
Lemma CopyVisitor_owned_id (h : gmap addr T) (i : Item) :
  owned i = true → CopyVisitor h i = Ok i.
Proof.
  induction i as [b|d|s|t|p|m IH] using Item_map_ind; try done.
  intros Hm%owned_Map. cbn [CopyVisitor].
  rewrite visit_entries_id; [done|].
  intros k v Hk. apply (IH k v Hk). by apply (Hm k v).
Qed.

Lemma CopyVisitor_const_owned_id (h : gmap addr T) (i : Item) :
  owned i = true → CopyVisitor_const h i = Ok i.
Proof. by destruct i. Qed.

Lemma apply_visitor_owned_id (c : value_category) (h : gmap addr T) (i : Item) :
  owned i = true → apply_visitor c h i = Ok i.
Proof.
  destruct c; [apply CopyVisitor_const_owned_id | apply CopyVisitor_owned_id].
Qed.

(** What the recursive visitor returns has no [CopyPtr] node left. *)
Lemma CopyVisitor_result_owned (h : gmap addr T) (i i' : Item) :
  CopyVisitor h i = Ok i' → owned i' = true.
Proof.
  revert i'. induction i as [b|d|s|t|p|m IH] using Item_map_ind; intros i' Hi;
    try (by injection Hi as <-).
  - apply CopyVisitor_CopyPtr in Hi as (obj & c & _ & _ & ->). done.
  - apply CopyVisitor_Map in Hi as (m' & -> & Hm').
    apply owned_Map. intros k v' Hk.
    specialize (Hm' k). destruct (m !! k) as [v|] eqn:Hmk; [|congruence].
    destruct Hm' as (v'' & Hv & Hk'). simplify_eq.
    by apply (IH k v Hmk).
Qed.

(** The only exception the visitors let out is the copy constructor's. *)
Lemma CopyVisitor_Throw (h : gmap addr T) (i : Item) (e : exn) :
  CopyVisitor h i = Throw e → e = copy_failed.
Proof.
  induction i as [b|d|s|t|p|m IH] using Item_map_ind; try done.
  - simpl. unfold copy_construct.
    destruct (h !! p) as [obj|]; [|done].
    destruct (copy_T obj); simpl; congruence.
  - cbn [CopyVisitor].
    destruct (visit_entries (CopyVisitor h) m) as [m'|e'|] eqn:Hm; simpl; [done| |done].
    intros [= ->].
    apply visit_entries_Throw in Hm as (k & v & Hk & Hv).
    by apply (IH k v Hk).
Qed.

Lemma CopyVisitor_const_Throw (h : gmap addr T) (i : Item) (e : exn) :
  CopyVisitor_const h i = Throw e → e = copy_failed.
Proof.
  destruct i as [b|d|s|t|p|m]; try done.
  simpl. unfold copy_construct.
  destruct (h !! p) as [obj|]; [|done].
  destruct (copy_T obj); simpl; congruence.
Qed.

Lemma apply_visitor_Throw (c : value_category) (h : gmap addr T) (i : Item) (e : exn) :
  apply_visitor c h i = Throw e → e = copy_failed.
Proof.
  destruct c; [apply CopyVisitor_const_Throw | apply CopyVisitor_Throw].
Qed.

(** The recursive visitor returns when every address the item refers to
    holds a live object whose copy constructor returns. *)
Lemma CopyVisitor_returns (h : gmap addr T) (i : Item) :
  (∀ p, p ∈ refs i → ∃ obj c, h !! p = Some obj ∧ copy_T obj = Some c) →
  ∃ i', CopyVisitor h i = Ok i'.
Proof.
  induction i as [b|d|s|t|p|m IH] using Item_map_ind; intros Hlive;
    try (by eexists).
  - destruct (Hlive p) as (obj & c & Hp & Hc); [set_solver|].
    exists (Custom c). simpl. unfold copy_construct. by rewrite Hp, Hc.
  - destruct (visit_entries_returns (CopyVisitor h) m) as [m' Hm'].
    + intros k v Hk. apply (IH k v Hk).
      intros p Hp. apply Hlive. apply refs_Map. by exists k, v.
    + exists (Map m'). cbn [CopyVisitor]. by rewrite Hm'.
Qed.




(** ** Copies of by-value payloads *)

Lemma no_payload_Map (m : gmap Key Item) :
  no_payload (Map m) = true ↔ map_Forall (fun _ v => no_payload v = true) m.
Proof.
  cbn [no_payload].
  apply (map_fold_weak_ind
           (fun (r : bool) (m : gmap Key Item) =>
              r = true ↔ map_Forall (fun _ v => no_payload v = true) m)).
  - split; [intros _; apply map_Forall_empty | done].
  - intros i x m' r Hfresh IH.
    rewrite map_Forall_insert by done.
    rewrite andb_true_iff. by rewrite IH.
Qed.

Lemma payloads_Map (m : gmap Key Item) (t : T) :
  t ∈ payloads (Map m) ↔ ∃ k v, m !! k = Some v ∧ t ∈ payloads v.
Proof.
  cbn [payloads].
  apply (map_fold_weak_ind
           (fun (r : list T) (m : gmap Key Item) =>
              t ∈ r ↔ ∃ k v, m !! k = Some v ∧ t ∈ payloads v)).
  - split; [by intros ?%elem_of_nil|]. intros (k & v & Hk & _). by rewrite lookup_empty in Hk.
  - intros i x m' r Hfresh IH.
    rewrite elem_of_app, IH. split.
    + intros [Hx | (k & v & Hk & Hp)].
      * exists i, x. by rewrite lookup_insert_eq.
      * exists k, v. split; [|done].
        rewrite lookup_insert_ne; [done|]. intros ->. congruence.
    + intros (k & v & Hk & Hp).
      destruct (decide (i = k)) as [->|Hne].
      * rewrite lookup_insert_eq in Hk. injection Hk as ->. by left.
      * rewrite lookup_insert_ne in Hk by done. right. by exists k, v.
Qed.

Lemma no_payload_payloads (i : Item) (t : T) :
  no_payload i = true → t ∉ payloads i.
Proof.
  induction i as [b|d|s|c|p|m IH] using Item_map_ind; try done;
    try (intros _; apply not_elem_of_nil).
  intros Hm%no_payload_Map (k & v & Hk & Ht)%payloads_Map.
  by apply (IH k v Hk (Hm k v Hk)).
Qed.

Lemma plain_owned_no_payload (i : Item) :
  plain i = true ↔ owned i = true ∧ no_payload i = true.
Proof. unfold plain. apply andb_true_iff. Qed.

Lemma copy_entries_Ok (copy : Item → res Item) (m r : gmap Key Item) :
  copy_entries copy m = Ok r →
  ∀ k, match m !! k with
       | Some v => ∃ v', copy v = Ok v' ∧ r !! k = Some v'
       | None => r !! k = None
       end.
Proof.
  intros [Hin Hout]%visit_fold_Ok k.
  destruct (m !! k) as [v|] eqn:Hk; [by apply Hin|].
  by rewrite Hout.
Qed.

Lemma copy_entries_id (copy : Item → res Item) (m : gmap Key Item) :
  (∀ k v, m !! k = Some v → copy v = Ok v) →
  copy_entries copy m = Ok m.
Proof.
  intros Hid.
  destruct (visit_fold_returns copy ∅ m) as [r Hr]; [naive_solver|].
  unfold copy_entries. rewrite Hr. f_equal. apply map_eq. intros k.
  pose proof (copy_entries_Ok copy m r Hr k) as Hk.
  destruct (m !! k) as [v|] eqn:Hmk; [|done].
  destruct Hk as (v' & Hv & ->). rewrite (Hid k v Hmk) in Hv. congruence.
Qed.

(** The copy of an item that holds no extension object by value is the
    item. *)
Lemma Item_copy_no_payload (i : Item) : no_payload i = true → Item_copy i = Ok i.
Proof.
  induction i as [b|d|s|c|p|m IH] using Item_map_ind; try done.
  intros Hm%no_payload_Map. cbn [Item_copy].
  rewrite copy_entries_id; [done|].
  intros k v Hk. apply (IH k v Hk). by apply (Hm k v).
Qed.





(** On an item that holds no extension object by value the const visit
    makes no call of the copy constructor beyond the one for a pointer at
    the root. *)
Lemma CopyVisitor_const_copying_no_payload (h : gmap addr T) (i : Item) :
  no_payload i = true → CopyVisitor_const_copying h i = CopyVisitor_const h i.
Proof.
  intros Hi. destruct i as [b|d|s|c|p|m]; try done.
  unfold CopyVisitor_const_copying, CopyVisitor_const.
  by apply Item_copy_no_payload.
Qed.



(** ** What the queue operations do *)

Lemma enqueue_Returns (r : res Item) (q q' : Queue) :
  enqueue r q = Returns q' →
  ∃ item, r = Ok item ∧ q' = MkQueue (m_lua q) (m_queue q ++ [item]).
Proof. destruct r as [item| |]; cbn; [|done..]. intros [= <-]. by exists item. Qed.

Lemma enqueue_Raises (r : res Item) (q q' : Queue) (e : exn) :
  enqueue r q = Raises e q' → r = Throw e ∧ q' = q.
Proof. destruct r as [item|e'|]; cbn; [done| |done]. by intros [= -> ->]. Qed.

Lemma push_enqueue (c : value_category) (h : gmap addr T) (msg_ : Item) (q : Queue) :
  push c h msg_ q = enqueue (apply_visitor c h msg_) q.
Proof. by destruct c. Qed.

Lemma size_unsafe_nil (lua : option lua_State) : size_unsafe (MkQueue lua []) = 0%Z.
Proof. done. Qed.



Lemma pop_Some (q q' : Queue) (msg : Message) :
  pop q = (Some msg, q') →
  m_queue q = m_item msg :: m_queue q' ∧ m_lua q' = m_lua q.
Proof.
  unfold pop. destruct (decide _); [done|].
  destruct q as [lua [|x l]]; [done|]. cbn. by intros [= <- <-].
Qed.

(** ** Extraction and navigation *)

Lemma boost_get_inject (t : Tag) (p : payload t) : boost_get t (inject t p) = Ok p.
Proof. by destruct t. Qed.

Lemma boost_get_Ok (t : Tag) (i : Item) (p : payload t) :
  boost_get t i = Ok p → i = inject t p.
Proof. destruct t, i; simpl; congruence. Qed.

Lemma boost_get_other (t : Tag) (i : Item) :
  tag_of i ≠ t → boost_get t i = Throw bad_get.
Proof. by destruct t, i. Qed.

(** C4. [as<B>()] on a [Message] or a [Nested] whose item holds another
    variant than [B] throws [boost::bad_get] (the type mismatch error); a
    payload is returned only when the item holds exactly the requested
    variant, and it is then the payload the item holds, never a default or a
    converted value.  In particular [as<Num>()] on a [Bool] throws. *)
Theorem as_returns_only_the_held_variant (t : Tag) (i : Item) :
  (tag_of i ≠ t →
     Message_as t (Msg i) = Throw bad_get ∧ Nested_as t (MkNested i) = Throw bad_get)
  ∧ (tag_of i = t →
     ∃ p : payload t, i = inject t p
                      ∧ Message_as t (Msg i) = Ok p ∧ Nested_as t (MkNested i) = Ok p)
  ∧ (∀ p : payload t, Message_as t (Msg i) = Ok p → i = inject t p)
  ∧ (∀ p : payload t, Nested_as t (MkNested i) = Ok p → i = inject t p)
  ∧ (∀ b : bool, Message_as TNum (Msg (Bool b)) = Throw bad_get
                 ∧ Nested_as TNum (MkNested (Bool b)) = Throw bad_get).
Proof.
  unfold Message_as, Nested_as. simpl. repeat split.
  - by apply boost_get_other.
  - by apply boost_get_other.
  - intros <-. destruct i; by eexists.
  - apply boost_get_Ok.
  - apply boost_get_Ok.
Qed.

Lemma get_Map (key_ : Key) (m : gmap Key Item) :
  Message_get key_ (Msg (Map m)) = MkNested <$> at_ m key_
  ∧ Nested_get key_ (MkNested (Map m)) = MkNested <$> at_ m key_.
Proof.
  unfold Message_get, Nested_get, at_. simpl.
  by destruct (m !! key_).
Qed.

(** C5. [get(key)] on a [Message] or a [Nested] whose item holds a [Map]
    returns the accessor of the child stored under [key] when the key is
    present and throws [std::out_of_range] (key not found) when it is absent;
    on an item that holds no [Map] it throws [boost::bad_get] (type
    mismatch).  An accessor is only ever returned for a key the map already
    has, and it is the child stored there: nothing is created for a missing
    key.  [get] is a const member: it yields the accessor and nothing else. *)
Theorem get_finds_present_keys_only (key_ : Key) (i : Item) :
  (∀ m v, i = Map m → m !! key_ = Some v →
     Message_get key_ (Msg i) = Ok (MkNested v)
     ∧ Nested_get key_ (MkNested i) = Ok (MkNested v))
  ∧ (∀ m, i = Map m → m !! key_ = None →
     Message_get key_ (Msg i) = Throw out_of_range
     ∧ Nested_get key_ (MkNested i) = Throw out_of_range)
  ∧ (tag_of i ≠ TMap →
     Message_get key_ (Msg i) = Throw bad_get
     ∧ Nested_get key_ (MkNested i) = Throw bad_get)
  ∧ (∀ n, Message_get key_ (Msg i) = Ok n →
     ∃ m, i = Map m ∧ m !! key_ = Some (m_pitem n))
  ∧ (∀ n, Nested_get key_ (MkNested i) = Ok n →
     ∃ m, i = Map m ∧ m !! key_ = Some (m_pitem n)).
Proof.
  split_and!.
  - intros m v -> Hk. destruct (get_Map key_ m) as [-> ->].
    unfold at_. by rewrite Hk.
  - intros m -> Hk. destruct (get_Map key_ m) as [-> ->].
    unfold at_. by rewrite Hk.
  - intros Hi. by destruct i.
  - intros n Hn. destruct i as [b|d|s|t|p|m]; try done.
    exists m. split; [done|].
    destruct (get_Map key_ m) as [Hg _]. rewrite Hg in Hn.
    unfold at_ in Hn. destruct (m !! key_) as [v|]; [|done].
    simpl in Hn. by injection Hn as <-.
  - intros n Hn. destruct i as [b|d|s|t|p|m]; try done.
    exists m. split; [done|].
    destruct (get_Map key_ m) as [_ Hg]. rewrite Hg in Hn.
    unfold at_ in Hn. destruct (m !! key_) as [v|]; [|done].
    simpl in Hn. by injection Hn as <-.
Qed.

(** ** The queue: empty, append, remove *)



(** C3. On a queue that holds no entry (just constructed, or drained),
    [pop()] returns the empty optional and leaves the queue as it is, so it
    does so again on every further call; [pop_lua()] does the same, and
    [size()] is 0. *)
Theorem pop_on_empty_queue (q : Queue) (n : nat) :
  m_queue q = [] →
  pop q = (None, q)
  ∧ pop_lua q = (None, q)
  ∧ size q = 0%Z
  ∧ Nat.iter n (fun q => (pop q).2) q = q
  ∧ (pop (Nat.iter n (fun q => (pop q).2) q)).1 = None.
Proof.
  destruct q as [lua l]. simpl. intros ->.
  assert (Nat.iter n (fun q => (pop q).2) (MkQueue lua []) = MkQueue lua []) as Hn.
  { induction n as [|n IH]; [done|]. simpl. by rewrite IH. }
  rewrite Hn. done.
Qed.

Lemma size_after_append (lua : option lua_State) (l : list Item) (x : Item) :
  size (MkQueue lua (l ++ [x])) = ((size (MkQueue lua l) + 1) `mod` 2 ^ 32)%Z.
Proof.
  unfold size, size_unsafe. cbn [m_queue].
  rewrite length_app. cbn [length].
  rewrite Zplus_mod_idemp_l. f_equal. lia.
Qed.

Lemma enqueue_appends (r : res Item) (q q' : Queue) :
  enqueue r q = Returns q' →
  ∃ item, r = Ok item
          ∧ m_queue q' = m_queue q ++ [item]
          ∧ m_lua q' = m_lua q
          ∧ length (m_queue q') = S (length (m_queue q))
          ∧ (∀ n x, m_queue q !! n = Some x → m_queue q' !! n = Some x)
          ∧ m_queue q' !! length (m_queue q) = Some item
          ∧ size q' = ((size q + 1) `mod` 2 ^ 32)%Z.
Proof.
  intros (item & -> & ->)%enqueue_Returns. exists item. cbn [m_queue m_lua].
  split_and!; try done.
  - rewrite length_app. cbn. lia.
  - intros n x Hn. by apply lookup_app_l_Some.
  - by rewrite lookup_app_r, Nat.sub_diag.
  - destruct q as [lua l]. apply size_after_append.
Qed.

(** C10. A push that returns appends one entry at the back: the stored
    sequence is the old one followed by the visited value, the number of
    entries grows by one, every earlier entry is still at its position, and
    [size()] reports the count (as an [unsigned]).  This holds for the
    [Item] overloads, for [push_lua] and for [push(const char* )].  A pop that
    returns a message removes the front entry and nothing else: the entries
    behind it stay, in order. *)
Theorem push_appends_and_pop_removes_front (h : gmap addr T) (v : Item) (q q' : Queue) :
  (∀ c, push c h v q = Returns q' →
     ∃ item, apply_visitor c h v = Ok item
             ∧ m_queue q' = m_queue q ++ [item]
             ∧ m_lua q' = m_lua q
             ∧ length (m_queue q') = S (length (m_queue q))
             ∧ (∀ n x, m_queue q !! n = Some x → m_queue q' !! n = Some x)
             ∧ m_queue q' !! length (m_queue q) = Some item
             ∧ size q' = ((size q + 1) `mod` 2 ^ 32)%Z)
  ∧ (push_lua h v q = Returns q' →
     ∃ item, CopyVisitor h v = Ok item
             ∧ m_queue q' = m_queue q ++ [item]
             ∧ m_lua q' = m_lua q
             ∧ length (m_queue q') = S (length (m_queue q))
             ∧ (∀ n x, m_queue q !! n = Some x → m_queue q' !! n = Some x)
             ∧ m_queue q' !! length (m_queue q) = Some item
             ∧ size q' = ((size q + 1) `mod` 2 ^ 32)%Z)
  ∧ (∀ s, push_cstr s q = Returns q' →
     m_queue q' = m_queue q ++ [Str s]
     ∧ m_lua q' = m_lua q
     ∧ length (m_queue q') = S (length (m_queue q))
     ∧ (∀ n x, m_queue q !! n = Some x → m_queue q' !! n = Some x))
  ∧ (∀ msg, pop q = (Some msg, q') →
     m_queue q = m_item msg :: m_queue q'
     ∧ m_lua q' = m_lua q
     ∧ length (m_queue q) = S (length (m_queue q'))
     ∧ (∀ n x, m_queue q !! S n = Some x ↔ m_queue q' !! n = Some x))
  ∧ (∀ front, pop_lua q = (Some front, q') →
     m_queue q = front :: m_queue q' ∧ m_lua q' = m_lua q).
Proof.
  split_and!.
  - intros c. rewrite push_enqueue. apply enqueue_appends.
  - apply enqueue_appends.
  - intros s [= <-]. cbn [m_queue m_lua]. split_and!; try done.
    + rewrite length_app. cbn. lia.
    + intros n x Hn. by apply lookup_app_l_Some.
  - intros msg [Hq Hlua]%pop_Some. rewrite Hq. by split_and!.
  - intros front. unfold pop_lua. destruct (decide _); [done|].
    destruct q as [lua [|x l]]; [done|]. cbn. by intros [= <- <-].
Qed.

Lemma bind_on_bound_state (L : lua_State) (q : Queue) (rt : Runtime) :
  L ∈ bound_states rt → bind L (q, rt) = (MkQueue (Some L) (m_queue q), rt).
Proof. intros Hin. unfold bind. cbn. by rewrite decide_True. Qed.

Lemma bind_queue (L : lua_State) (st : Queue * Runtime) :
  (bind L st).1 = MkQueue (Some L) (m_queue st.1).
Proof. unfold bind. by destruct (decide _). Qed.

Lemma bind_marks_state (L : lua_State) (st : Queue * Runtime) :
  L ∈ bound_states (bind L st).2.
Proof. unfold bind. destruct (decide _); [done|]. cbn. set_solver. Qed.

(** C8. Binding a queue to a Lua state it is already bound to changes
    nothing: the queue keeps its context on that state, the set of bound
    states is the same, and no function is registered again.  The same holds
    when another queue binds to a state that is already bound. *)
Theorem bind_is_idempotent (L : lua_State) (st : Queue * Runtime) :
  bind L (bind L st) = bind L st
  ∧ m_lua (bind L st).1 = Some L
  ∧ L ∈ bound_states (bind L st).2
  ∧ (∀ other : Queue, (bind L (other, (bind L st).2)).2 = (bind L st).2).
Proof.
  pose proof (bind_marks_state L st) as Hin.
  pose proof (bind_queue L st) as Hq.
  split_and!.
  - destruct (bind L st) as [q1 rt1] eqn:Hb. cbn in Hin, Hq.
    rewrite bind_on_bound_state by done. by rewrite Hq.
  - by rewrite Hq.
  - done.
  - intros other. by rewrite bind_on_bound_state.
Qed.

Lemma bind_registers_once (L : lua_State) (q : Queue) (rt : Runtime) :
  L ∉ bound_states rt →
  registered (bind L (q, rt)).2
  = registered rt ++ [(L, "size"); (L, "push"); (L, "pop")].
Proof.
  intros Hnot. unfold bind. cbn. rewrite decide_False by done. cbn.
  by rewrite <- !app_assoc.
Qed.

(** ** First in, first out *)



(** C6, as the code has it.  A [Bool], [Num] or [Str] pushed on a queue that
    is empty comes back from the next pop as a message holding the same
    variant with the same payload, and the queue is empty again.  This holds
    for both [Item] overloads of [push], for [push_lua], and for
    [push(const char* )] with a string. *)
Theorem primitive_round_trip_on_empty_queue
    (lua : option lua_State) (c : value_category) (h : gmap addr T)
    (t : Tag) (p : payload t) :
  primitive t = true →
  push c h (inject t p) (MkQueue lua []) = Returns (MkQueue lua [inject t p])
  ∧ push_lua h (inject t p) (MkQueue lua []) = Returns (MkQueue lua [inject t p])
  ∧ (∀ s, push_cstr s (MkQueue lua []) = Returns (MkQueue lua [Str s]))
  ∧ pop (MkQueue lua [inject t p]) = (Some (Msg (inject t p)), MkQueue lua [])
  ∧ tag_of (inject t p) = t
  ∧ Message_as t (Msg (inject t p)) = Ok p.
Proof.
  intros Ht. destruct t; try done; by destruct c.
Qed.

(** ** Copy on transfer, on the paths that visit the whole item *)

(** [push(Item&&)] of a value that holds no extension object by value
    stores an item without any [CopyPtr] node: the item the recursive visitor
    returned, which refers to no outside address.  A [CopyPtr] at the root,
    or directly under a key of a pushed map, is stored as the copy of the
    object it pointed to.  Such a push returns whenever every address the
    value refers to holds a live object whose copy constructor returns. *)
Theorem push_rvalue_stores_owned_copy (h : gmap addr T) (v : Item) (q q' : Queue) :
  no_payload v = true →
  (push rvalue h v q = Returns q' →
   ∃ item,
     CopyVisitor h v = Ok item
     ∧ m_queue q' = m_queue q ++ [item]
     ∧ owned item = true
     ∧ refs item = ∅
     ∧ (∀ p, v = CopyPtr p →
          ∃ obj c, h !! p = Some obj ∧ copy_T obj = Some c ∧ item = Custom c)
     ∧ (∀ m k p, v = Map m → m !! k = Some (CopyPtr p) →
          ∃ obj c m', h !! p = Some obj ∧ copy_T obj = Some c
                      ∧ item = Map m' ∧ m' !! k = Some (Custom c)))
  ∧ ((∀ p, p ∈ refs v → ∃ obj c, h !! p = Some obj ∧ copy_T obj = Some c) →
     ∃ item, push rvalue h v q = Returns (MkQueue (m_lua q) (m_queue q ++ [item]))).
Proof.
  intros _. split.
  - intros (item & Hv & ->)%enqueue_Returns. exists item.
    pose proof (CopyVisitor_result_owned h v item Hv) as Hown.
    split_and!; try done.
    + by apply owned_refs.
    + intros p ->. by apply CopyVisitor_CopyPtr.
    + intros m k p -> Hk.
      apply CopyVisitor_Map in Hv as (m' & -> & Hm').
      specialize (Hm' k). rewrite Hk in Hm'. destruct Hm' as (v' & Hv' & Hk').
      apply CopyVisitor_CopyPtr in Hv' as (obj & c & Hp & Hc & ->).
      by exists obj, c, m'.
  - intros Hlive. destruct (CopyVisitor_returns h v Hlive) as [item Hv].
    exists item. unfold push, push_rvalue. by rewrite Hv.
Qed.

(** ** Schedules of calls *)

Lemma pop_lua_pop (q : Queue) : pop_lua q = (m_item <$> (pop q).1, (pop q).2).
Proof.
  unfold pop_lua, pop. destruct (decide _); [done|].
  by destruct (m_queue q).
Qed.

Lemma pop_conserves (q : Queue) :
  option_list (m_item <$> (pop q).1) ++ m_queue (pop q).2 = m_queue q.
Proof.
  unfold pop. destruct (decide _); [done|].
  by destruct q as [lua [|x l]].
Qed.

Lemma do_call_conserves (o : call) (q q' : Queue) (x : option Item) :
  do_call o q = Some (x, q') →
  option_list x ++ m_queue q' = m_queue q ++ stored_by o
  ∧ m_lua q' = m_lua q.
Proof.
  destruct o as [c h v|s|h v| | |]; simpl.
  - rewrite push_enqueue.
    destruct (apply_visitor c h v) as [item|e|]; simpl; [| |done];
      intros [= <- <-]; simpl; by rewrite ?app_nil_r.
  - by intros [= <- <-].
  - unfold push_lua.
    destruct (CopyVisitor h v) as [item|e|]; simpl; [| |done];
      intros [= <- <-]; simpl; by rewrite ?app_nil_r.
  - intros [= <- <-]. rewrite app_nil_r. split; [apply pop_conserves|].
    unfold pop. destruct (decide _); [done|]. by destruct (m_queue q).
  - rewrite pop_lua_pop. intros [= <- <-]. rewrite app_nil_r.
    split; [apply pop_conserves|].
    unfold pop. destruct (decide _); [done|]. by destruct (m_queue q).
  - intros [= <- <-]. by rewrite app_nil_r.
Qed.

Lemma do_calls_conserve (os : list call) (q q' : Queue) (popped : list Item) :
  do_calls os q = Some (popped, q') →
  popped ++ m_queue q' = m_queue q ++ flat_map stored_by os
  ∧ m_lua q' = m_lua q.
Proof.
  revert q popped. induction os as [|o os IH]; intros q popped Hrun.
  - simpl in Hrun. injection Hrun as <- <-. simpl. by rewrite app_nil_r.
  - simpl in Hrun.
    destruct (do_call o q) as [[x q1]|] eqn:Ho; [|done]. simpl in Hrun.
    destruct (do_calls os q1) as [[xs q2]|] eqn:Hos; [|done]. simpl in Hrun.
    injection Hrun as <- <-.
    destruct (IH q1 xs Hos) as [IHeq IHlua].
    destruct (do_call_conserves o q q1 x Ho) as [Heq1 Hlua1].
    split; [|congruence]. simpl.
    rewrite <- app_assoc, IHeq, !app_assoc. by rewrite Heq1.
Qed.

Lemma do_call_defined (o : call) (q : Queue) :
  call_defined o = true → ∃ x q', do_call o q = Some (x, q').
Proof.
  destruct o as [c h v|s|h v| | |]; simpl; try by eauto.
  - rewrite push_enqueue. destruct (apply_visitor c h v); simpl; by eauto.
  - unfold push_lua. destruct (CopyVisitor h v); simpl; by eauto.
  - intros _. destruct (pop_lua q) as [x q']. by exists x, q'.
Qed.

Lemma do_calls_defined (os : list call) (q : Queue) :
  forallb call_defined os = true → ∃ popped q', do_calls os q = Some (popped, q').
Proof.
  revert q. induction os as [|o os IH]; intros q Hdef; [by eexists _, _|].
  simpl in Hdef. apply andb_true_iff in Hdef as [Ho Hos].
  destruct (do_call_defined o q Ho) as (x & q1 & Hx).
  destruct (IH q1 Hos) as (xs & q2 & Hxs).
  exists (option_list x ++ xs), q2. simpl. rewrite Hx. simpl. by rewrite Hxs.
Qed.

Lemma call_plain_stores_pushed (o : call) :
  call_plain o = true → call_defined o = true ∧ stored_by o = pushed o.
Proof.
  destruct o as [c h v|s|h v| | |]; try done; unfold call_plain; simpl;
    rewrite andb_true_r; intros [Hown _]%plain_owned_no_payload.
  - by rewrite apply_visitor_owned_id.
  - by rewrite CopyVisitor_owned_id.
Qed.

Lemma calls_plain_store_pushed (os : list call) :
  forallb call_plain os = true →
  forallb call_defined os = true ∧ flat_map stored_by os = flat_map pushed os.
Proof.
  induction os as [|o os IH]; [done|]. simpl.
  intros [Ho Hos]%andb_true_iff.
  destruct (call_plain_stores_pushed o Ho) as [-> ->].
  destruct (IH Hos) as [-> ->]. done.
Qed.

(** Calls made one after the other on a queue of plain entries, pushing
    plain values: every call returns, and nothing is lost, duplicated or
    reordered.  The items handed out by the pops, followed by the entries
    still queued, are the entries queued at the start followed by the pushed
    values, in the order of the calls; so the number of items popped plus
    the number left is the number there was plus the number pushed. *)
Theorem call_sequence_conserves_entries (os : list call) (q : Queue) :
  forallb plain (m_queue q) = true →
  forallb call_plain os = true →
  ∃ popped q',
    do_calls os q = Some (popped, q')
    ∧ popped ++ m_queue q' = m_queue q ++ flat_map pushed os
    ∧ length popped + length (m_queue q')
      = length (m_queue q) + length (flat_map pushed os)
    ∧ (∀ x, x ∈ popped → x ∈ m_queue q ∨ x ∈ flat_map pushed os)
    ∧ m_lua q' = m_lua q.
Proof.
  intros _ [Hdef Hstored]%calls_plain_store_pushed.
  destruct (do_calls_defined os q Hdef) as (popped & q' & Hrun).
  exists popped, q'. split; [done|].
  destruct (do_calls_conserve os q q' popped Hrun) as [Heq Hlua].
  rewrite Hstored in Heq.
  split_and!; [done| |  |done].
  - rewrite <- !length_app. by rewrite Heq.
  - intros x Hx. apply elem_of_app. rewrite <- Heq. apply elem_of_app. by left.
Qed.


(** ** Size and emptiness *)




(** ** What the visitor reads, keeps and changes *)

Lemma visit_entries_ext (f g : Item → res Item) (m : gmap Key Item) :
  (∀ k v, m !! k = Some v → f v = g v) →
  visit_entries f m = visit_entries g m.
Proof.
  intros Hfg. unfold visit_entries. rewrite !map_fold_foldr.
  assert (Forall (fun kv => f kv.2 = g kv.2) (map_to_list m)) as Hall.
  { apply Forall_forall. intros [k v] Hkv. simpl.
    apply (Hfg k). by apply elem_of_map_to_list. }
  generalize (Ok m : res (gmap Key Item)).
  induction Hall as [|[k v] l Hkv Hl IH]; intros b; [done|].
  simpl. rewrite IH. unfold visit_entry. simpl in Hkv. by rewrite Hkv.
Qed.

Lemma CopyVisitor_frame (h1 h2 : gmap addr T) (i : Item) :
  (∀ p, p ∈ refs i → h1 !! p = h2 !! p) →
  CopyVisitor h1 i = CopyVisitor h2 i.
Proof.
  induction i as [b|d|s|t|p|m IH] using Item_map_ind; intros Hagree; try done.
  - simpl. unfold copy_construct. rewrite (Hagree p); [done|]. set_solver.
  - cbn [CopyVisitor]. rewrite (visit_entries_ext (CopyVisitor h1) (CopyVisitor h2)); [done|].
    intros k v Hk. apply (IH k v Hk). intros p Hp.
    apply Hagree. apply refs_Map. by exists k, v.
Qed.

(** The visitors read the outside memory only at the addresses the item
    refers to: in two memories that hold the same objects at those
    addresses a visit ends the same way, with the same item, the same
    exception or the same undefined behaviour, and so does a push. *)
Theorem visitor_reads_only_referenced_objects
    (c : value_category) (h1 h2 : gmap addr T) (i : Item) (q : Queue) :
  (∀ p, p ∈ refs i → h1 !! p = h2 !! p) →
  apply_visitor c h1 i = apply_visitor c h2 i
  ∧ push c h1 i q = push c h2 i q
  ∧ push_lua h1 i q = push_lua h2 i q.
Proof.
  intros Hagree.
  assert (CopyVisitor h1 i = CopyVisitor h2 i) as Hr by by apply CopyVisitor_frame.
  assert (apply_visitor c h1 i = apply_visitor c h2 i) as Hc.
  { destruct c; [|done]. by destruct i as [b|d|s|t|p|m]. }
  split_and!; [done| |].
  - by rewrite !push_enqueue, Hc.
  - unfold push_lua. by rewrite Hr.
Qed.

Lemma CopyVisitor_Map_dom (h : gmap addr T) (m m' : gmap Key Item) :
  CopyVisitor h (Map m) = Ok (Map m') → dom m' = dom m.
Proof.
  intros (m'' & [= <-] & Hm)%CopyVisitor_Map.
  apply set_eq. intros k. rewrite !elem_of_dom. specialize (Hm k).
  destruct (m !! k) as [v|].
  - destruct Hm as (v' & _ & ->). split; by eauto.
  - rewrite Hm. split; by intros [? ?].
Qed.

(** On an item that holds no extension object by value, a visit that
    returns keeps the shape of the item: a [CopyPtr] becomes a [Custom],
    every other node keeps its kind, a map keeps exactly its keys, and
    [get(key)] on the stored item is the visit of what [get(key)] finds in
    the pushed one (with the same exception when it finds nothing). *)
Theorem visitor_keeps_shape_and_keys (h : gmap addr T) (i i' : Item) :
  no_payload i = true →
  CopyVisitor h i = Ok i' →
  tag_of i' = match tag_of i with TCopyPtr => TCustom | t => t end
  ∧ (∀ m m', i = Map m → i' = Map m' → dom m' = dom m)
  ∧ (∀ key_,
       Message_get key_ (Msg i')
       = (n ← Message_get key_ (Msg i);
          item ← CopyVisitor h (m_pitem n);
          Ok (MkNested item))).
Proof.
  intros _ Hi. split_and!.
  - destruct i as [b|d|s|t|p|m]; try (by injection Hi as <-).
    + by apply CopyVisitor_CopyPtr in Hi as (? & ? & _ & _ & ->).
    + by apply CopyVisitor_Map in Hi as (m' & -> & _).
  - intros m m' -> ->. by apply (CopyVisitor_Map_dom h).
  - intros key_. destruct i as [b|d|s|t|p|m]; try (by injection Hi as <-).
    + by apply CopyVisitor_CopyPtr in Hi as (? & ? & _ & _ & ->).
    + apply CopyVisitor_Map in Hi as (m' & -> & Hm). specialize (Hm key_).
      destruct (get_Map key_ m) as [-> _]. destruct (get_Map key_ m') as [-> _].
      unfold at_. destruct (m !! key_) as [v|].
      * destruct Hm as (v' & Hv & ->). simpl. by rewrite Hv.
      * by rewrite Hm.
Qed.

(** Where the two [Item] overloads of [push] differ, on an item that holds
    no extension object by value.  When the recursive visit of the item
    returns, the const visit of [push(const Item&)] returns the same item
    exactly when the item is not a map or has no [CopyPtr] node; for a map
    with a [CopyPtr] node below it, the const visit returns the map as it was
    pushed. *)
Theorem push_overloads_agree_iff (h : gmap addr T) (i i' : Item) (q : Queue) :
  no_payload i = true →
  CopyVisitor h i = Ok i' →
  CopyVisitor_const_copying h i = CopyVisitor_const h i
  ∧ (CopyVisitor_const h i = Ok i' ↔ tag_of i ≠ TMap ∨ owned i = true)
  ∧ (push lvalue h i q = push rvalue h i q ↔ tag_of i ≠ TMap ∨ owned i = true)
  ∧ (tag_of i = TMap → owned i = false →
     CopyVisitor_const h i = Ok i ∧ i ≠ i'
     ∧ push lvalue h i q = Returns (MkQueue (m_lua q) (m_queue q ++ [i]))).
Proof.
  intros Hplain Hi.
  pose proof (CopyVisitor_result_owned h i i' Hi) as Hown'.
  assert (CopyVisitor_const h i = Ok i' ↔ tag_of i ≠ TMap ∨ owned i = true) as Hiff.
  { destruct i as [b|d|s|t|p|m]; try (split; [by left | done]).
    simpl. split.
    - intros [= <-]. by right.
    - intros [Hm|Hm]; [done|]. rewrite CopyVisitor_owned_id in Hi by done. done. }
  split_and!; [by apply CopyVisitor_const_copying_no_payload|done| |].
  - rewrite <- Hiff. unfold push, push_const_ref, push_rvalue. rewrite Hi.
    split.
    + destruct (CopyVisitor_const h i) as [x| |]; simpl; [|done..].
      intros [= Hx]. apply app_inv_head in Hx. congruence.
    + by intros ->.
  - intros Hm Hnot. destruct i as [b|d|s|t|p|m]; try done.
    split_and!; [done| |done]. intros <-. congruence.
Qed.

(** ** Chained navigation *)

(** [msg.get(a).get(b).as<U>()] returns a payload exactly when the message
    holds a map with a map under [a] that holds a [U] under [b], and then it
    is that payload.  Otherwise the first step that fails decides the
    exception: [bad_get] at a node that is not of the expected kind,
    [out_of_range] at a missing key. *)
Theorem chained_get_as (a b : Key) (t : Tag) (i : Item) :
  (∀ p : payload t,
     (n1 ← Message_get a (Msg i); n2 ← Nested_get b n1; Nested_as t n2) = Ok p
     ↔ ∃ m m2, i = Map m ∧ m !! a = Some (Map m2) ∧ m2 !! b = Some (inject t p))
  ∧ (tag_of i ≠ TMap →
     (n1 ← Message_get a (Msg i); n2 ← Nested_get b n1; Nested_as t n2) = Throw bad_get)
  ∧ (∀ m, i = Map m → m !! a = None →
     (n1 ← Message_get a (Msg i); n2 ← Nested_get b n1; Nested_as t n2) = Throw out_of_range)
  ∧ (∀ m v, i = Map m → m !! a = Some v → tag_of v ≠ TMap →
     (n1 ← Message_get a (Msg i); n2 ← Nested_get b n1; Nested_as t n2) = Throw bad_get)
  ∧ (∀ m m2, i = Map m → m !! a = Some (Map m2) → m2 !! b = None →
     (n1 ← Message_get a (Msg i); n2 ← Nested_get b n1; Nested_as t n2) = Throw out_of_range)
  ∧ (∀ m m2 w, i = Map m → m !! a = Some (Map m2) → m2 !! b = Some w → tag_of w ≠ t →
     (n1 ← Message_get a (Msg i); n2 ← Nested_get b n1; Nested_as t n2) = Throw bad_get)
  ∧ (n1 ← Message_get a (Msg i); n2 ← Nested_get b n1; Nested_as t n2) ≠ Undefined.
Proof.
  assert (∀ m v, m !! a = Some v →
            (n1 ← Message_get a (Msg (Map m)); n2 ← Nested_get b n1; Nested_as t n2)
            = (n2 ← Nested_get b (MkNested v); Nested_as t n2)) as Hstep1.
  { intros m v Hv. destruct (get_Map a m) as [-> _]. unfold at_. by rewrite Hv. }
  assert (∀ m2 w, m2 !! b = Some w →
            (n2 ← Nested_get b (MkNested (Map m2)); Nested_as t n2) = boost_get t w) as Hstep2.
  { intros m2 w Hw. destruct (get_Map b m2) as [_ ->]. unfold at_. by rewrite Hw. }
  split_and!.
  - intros p. split.
    + destruct i as [| | | | |m]; try done.
      destruct (m !! a) as [v|] eqn:Hv.
      * rewrite (Hstep1 m v Hv). destruct v as [| | | | |m2]; try done.
        destruct (m2 !! b) as [w|] eqn:Hw.
        -- rewrite (Hstep2 m2 w Hw). intros ->%boost_get_Ok. by exists m, m2.
        -- destruct (get_Map b m2) as [_ ->]. unfold at_. by rewrite Hw.
      * destruct (get_Map a m) as [-> _]. unfold at_. by rewrite Hv.
    + intros (m & m2 & -> & Hv & Hw).
      rewrite (Hstep1 m _ Hv), (Hstep2 m2 _ Hw). apply boost_get_inject.
  - intros Hi. by destruct i.
  - intros m -> Hv. destruct (get_Map a m) as [-> _]. unfold at_. by rewrite Hv.
  - intros m v -> Hv Htag. rewrite (Hstep1 m v Hv). by destruct v.
  - intros m m2 -> Hv Hw. rewrite (Hstep1 m _ Hv).
    destruct (get_Map b m2) as [_ ->]. unfold at_. by rewrite Hw.
  - intros m m2 w -> Hv Hw Htag. rewrite (Hstep1 m _ Hv), (Hstep2 m2 w Hw).
    by apply boost_get_other.
  - destruct i as [| | | | |m]; try done.
    destruct (m !! a) as [v|] eqn:Hv.
    + rewrite (Hstep1 m v Hv). destruct v as [| | | | |m2]; try done.
      destruct (m2 !! b) as [w|] eqn:Hw.
      * rewrite (Hstep2 m2 w Hw). by destruct t, w.
      * destruct (get_Map b m2) as [_ ->]. unfold at_. by rewrite Hw.
    + destruct (get_Map a m) as [-> _]. unfold at_. by rewrite Hv.
Qed.

(** ** Binding many queues to many states *)

Lemma bind_new_state (L : lua_State) (q : Queue) (rt : Runtime) :
  L ∉ bound_states rt →
  bound_states (bind L (q, rt)).2 = {[ L ]} ∪ bound_states rt.
Proof. intros Hnot. unfold bind. cbn. by rewrite decide_False. Qed.

Lemma bind_runtime_any_queue (L : lua_State) (q1 q2 : Queue) (rt : Runtime) :
  (bind L (q1, rt)).2 = (bind L (q2, rt)).2.
Proof. unfold bind. cbn. by destruct (decide _). Qed.

(** Starting with no state bound, after any sequence of [bind] calls the
    set of bound states is the set of states that were passed, and each of
    them has had [size], [push] and [pop] registered exactly once, however
    often it was passed: the registrations are three per bound state, without
    repetition.  The queue keeps its entries and ends up with a context on
    the state passed last.  What a [bind] does to the runtime does not
    depend on the queue that calls it. *)
Theorem binds_register_each_state_once (Ls : list lua_State) (q : Queue) :
  let st := foldl (fun st L => bind L st) (q, MkRuntime ∅ []) Ls in
  bound_states st.2 = list_to_set Ls
  ∧ NoDup (registered st.2)
  ∧ (∀ L name, (L, name) ∈ registered st.2 ↔ L ∈ Ls ∧ name ∈ ["size"; "push"; "pop"])
  ∧ length (registered st.2) = 3 * base.size (bound_states st.2)
  ∧ m_queue st.1 = m_queue q
  ∧ m_lua st.1 = match last Ls with Some L => Some L | None => m_lua q end
  ∧ (∀ L other, (bind L (other, st.2)).2 = (bind L st).2).
Proof.
  cbv zeta. induction Ls as [|L Ls IH] using rev_ind.
  - simpl. split_and!; try done.
    + apply NoDup_nil_2.
    + intros L name. split; [by intros ?%elem_of_nil | by intros [?%elem_of_nil _]].
  - rewrite foldl_snoc, last_snoc.
    destruct (foldl (fun st L => bind L st) (q, MkRuntime ∅ []) Ls) as [q1 rt1].
    cbn [fst snd] in IH. destruct IH as (HA & HB & HC & HD & HE & _ & _).
    assert (∀ L', L' ∈ bound_states rt1 ↔ L' ∈ Ls) as Hin.
    { intros L'. rewrite HA. apply elem_of_list_to_set. }
    assert (m_queue (bind L (q1, rt1)).1 = m_queue q
            ∧ m_lua (bind L (q1, rt1)).1 = Some L) as [HE' HF'].
    { by rewrite bind_queue. }
    split_and!; [| | | |done|done|].
    + destruct (decide (L ∈ bound_states rt1)) as [Hb|Hb].
      * rewrite bind_on_bound_state by done. cbn [snd].
        rewrite list_to_set_snoc_L, <- HA. set_solver.
      * rewrite bind_new_state by done.
        rewrite list_to_set_snoc_L, <- HA. set_solver.
    + destruct (decide (L ∈ bound_states rt1)) as [Hb|Hb].
      * by rewrite bind_on_bound_state.
      * rewrite bind_registers_once by done. apply NoDup_app. split_and!; [done| |].
        -- intros [L' name] Hreg Hnew. apply HC in Hreg as [HL' _].
           assert (L' = L) as -> by set_solver. apply Hb. by apply Hin.
        -- repeat (apply NoDup_cons; split; [set_solver|]). apply NoDup_nil_2.
    + intros L' name.
      destruct (decide (L ∈ bound_states rt1)) as [Hb|Hb].
      * rewrite bind_on_bound_state by done. cbn [snd]. rewrite HC.
        apply Hin in Hb. set_solver.
      * rewrite bind_registers_once by done. rewrite elem_of_app, HC.
        set_solver.
    + destruct (decide (L ∈ bound_states rt1)) as [Hb|Hb].
      * by rewrite bind_on_bound_state.
      * rewrite bind_registers_once, bind_new_state by done.
        rewrite length_app, HD. cbn [length].
        rewrite size_union by set_solver. rewrite size_singleton. lia.
    + intros L' other. apply bind_runtime_any_queue.
Qed.


(** ** A pushed pointer comes back as the copy *)


(** ** Pushes and the copy constructor *)












End Extension.

(** ** The first version of the queue *)

Lemma first_queue_push_all (l : list QueueCpp.Item) (q : QueueCpp.Queue) :
  QueueCpp.m_queue (foldl (fun q x => QueueCpp.push_rvalue (QueueCpp.Msg x) q) q l)
  = QueueCpp.m_queue q ++ l.
Proof.
  revert q. induction l as [|x l IH]; intros q; simpl; [by rewrite app_nil_r|].
  rewrite IH. simpl. by rewrite <- app_assoc.
Qed.

(** In [Queue.cpp], [pop()] has no check for an empty queue: its behaviour
    is undefined exactly on a queue without entries, it never throws, and a
    caller that first finds [size()] different from 0 gets the front entry
    and the queue without it.  [pop_lua()] behaves the same way. *)
Theorem first_queue_pop_needs_an_entry (q : QueueCpp.Queue) :
  (QueueCpp.pop q = Undefined ↔ QueueCpp.m_queue q = [])
  ∧ (QueueCpp.pop_lua q = Undefined ↔ QueueCpp.m_queue q = [])
  ∧ (∀ e, QueueCpp.pop q ≠ Throw e ∧ QueueCpp.pop_lua q ≠ Throw e)
  ∧ (QueueCpp.size q ≠ 0%Z →
     ∃ front rest,
       QueueCpp.m_queue q = front :: rest
       ∧ QueueCpp.pop q = Ok (QueueCpp.Msg front, QueueCpp.MkQueue rest)
       ∧ QueueCpp.pop_lua q = Ok (front, QueueCpp.MkQueue rest))
  ∧ QueueCpp.size QueueCpp.Queue_new = 0%Z
  ∧ QueueCpp.pop QueueCpp.Queue_new = Undefined.
Proof.
  unfold QueueCpp.pop, QueueCpp.pop_lua, QueueCpp.size.
  destruct q as [[|x l]]; simpl; split_and!; try done.
  intros _. by exists x, l.
Qed.

(** In [Queue.cpp] a pushed item is stored as it is, behind the entries
    already queued, by each of the three push functions.  After any items
    are pushed one by one, each pop returns the next entry from the front,
    so the entries come out in the order they went in, and the pop after the
    last one is undefined. *)
Theorem first_queue_is_fifo (l : list QueueCpp.Item) (q : QueueCpp.Queue) :
  let filled := foldl (fun q x => QueueCpp.push_rvalue (QueueCpp.Msg x) q) q l in
  QueueCpp.m_queue filled = QueueCpp.m_queue q ++ l
  ∧ (∀ x q0, QueueCpp.push_const_ref (QueueCpp.Msg x) q0
             = QueueCpp.push_rvalue (QueueCpp.Msg x) q0
             ∧ QueueCpp.push_lua x q0 = QueueCpp.push_rvalue (QueueCpp.Msg x) q0)
  ∧ (∀ k x, QueueCpp.m_queue filled !! k = Some x →
       QueueCpp.pop (QueueCpp.MkQueue (drop k (QueueCpp.m_queue filled)))
       = Ok (QueueCpp.Msg x, QueueCpp.MkQueue (drop (S k) (QueueCpp.m_queue filled))))
  ∧ QueueCpp.pop
      (QueueCpp.MkQueue (drop (length (QueueCpp.m_queue filled)) (QueueCpp.m_queue filled)))
    = Undefined.
Proof.
  cbv zeta. split_and!.
  - apply first_queue_push_all.
  - done.
  - intros k x Hk. by rewrite (drop_S _ x k Hk).
  - by rewrite drop_all.
Qed.

(** In [Queue.cpp] the first [bind] call, whichever of the three overloads
    it is, installs its context in the static [Queue::lua] and registers
    [size], [push] and [pop]; every later call of any overload, for any
    state, changes nothing.  So after any sequence of bind calls the context
    is the one of the first call and the three functions are registered
    once. *)
Theorem first_queue_first_bind_wins (cs : list QueueCpp.bind_call) :
  foldl QueueCpp.do_bind QueueCpp.Static_init cs
  = match cs with
    | [] => QueueCpp.Static_init
    | c :: _ => QueueCpp.MkStatic (Some (QueueCpp.context_of c)) ["size"; "push"; "pop"]
    end
  ∧ (∀ st c, QueueCpp.lua st ≠ None → QueueCpp.do_bind st c = st)
  ∧ (∀ c, QueueCpp.lua (QueueCpp.do_bind QueueCpp.Static_init c)
          = Some (QueueCpp.context_of c)).
Proof.
  assert (∀ st c, QueueCpp.lua st ≠ None → QueueCpp.do_bind st c = st) as Hkeep.
  { intros [[C|] reg] c Hset; [|done]. by destruct c. }
  split_and!; [|done|by intros []].
  destruct cs as [|c cs]; [done|]. simpl.
  assert (QueueCpp.do_bind QueueCpp.Static_init c
          = QueueCpp.MkStatic (Some (QueueCpp.context_of c)) ["size"; "push"; "pop"])
    as -> by by destruct c.
  induction cs as [|c' cs IH]; [done|]. simpl. by rewrite Hkeep.
Qed.

(** ** The scenarios of the test suite, on [Queue<CustomType, CopyPtr<CustomType>*>] *)

(** C1, evaluated on the code.  An lvalue [Item] holding the map
    [{ "temp" : (CopyPtr<CustomType>* )temporary }] is pushed, which selects
    [push(const Item&)].  The const visitation does not enter the map: the
    queue stores the map with the [CopyPtr] node still in it, referring to
    the outside address, and [get("temp").as<CustomType>()] on the popped
    message throws.  The same map pushed as an rvalue is stored with the
    node replaced by a copy of the object. *)
Theorem push_const_ref_keeps_nested_CopyPtr :
  let h : gmap addr CustomType := {[ 7%N := CustomType_new 7 ]} in
  let msg : Item := Map {[ KStr "temp" := CopyPtr 7%N ]} in
  push (CustomType_copy true) lvalue h msg Queue_new = Returns (MkQueue None [msg])
  ∧ owned msg = false
  ∧ refs msg = {[ 7%N ]}
  ∧ pop (MkQueue None [msg]) = (Some (Msg msg), Queue_new)
  ∧ Message_get (KStr "temp") (Msg msg) ≫= Nested_as TCustom = Throw bad_get
  ∧ push (CustomType_copy true) rvalue h msg Queue_new
    = Returns (MkQueue None [Map {[ KStr "temp" := Custom (CustomType_new 7) ]}]).
Proof. by vm_compute. Qed.


(** C6 as stated: the round trip read on every queue fails on one that
    already holds an entry: the pop after the push returns the older entry, and extracting
    the pushed kind from it throws. *)
Lemma round_trip_fails_on_nonempty_queue :
  let q0 : Queue := MkQueue None [Bool true] in
  let q1 : Queue := MkQueue None [Bool true; Num 2.5] in
  push (CustomType_copy true) rvalue ∅ (Num 2.5) q0 = Returns q1
  ∧ pop q1 = (Some (Msg (Bool true)), MkQueue None [Num 2.5])
  ∧ (pop q1).1 ≠ Some (Msg (Num 2.5))
  ∧ Message_as (T := CustomType) TNum (Msg (Bool true)) = Throw bad_get.
Proof. by vm_compute. Qed.

(** *** Instances *)


Lemma pop_on_empty_queue_witness :
  m_queue (Queue_new (T := CustomType)) = []
  ∧ pop (Queue_new (T := CustomType)) = (None, Queue_new)
  ∧ pop_lua (Queue_new (T := CustomType)) = (None, Queue_new)
  ∧ size (Queue_new (T := CustomType)) = 0%Z
  ∧ Nat.iter 3 (fun q => (pop q).2) (Queue_new (T := CustomType)) = Queue_new
  ∧ (pop (Nat.iter 3 (fun q => (pop q).2) (Queue_new (T := CustomType)))).1 = None.
Proof.
  split; [reflexivity|].
  exact (pop_on_empty_queue (T := CustomType) Queue_new 3 eq_refl).
Defined.

Lemma as_returns_only_the_held_variant_witness :
  tag_of (Bool true : Item (T := CustomType)) ≠ TNum
  ∧ Message_as (T := CustomType) TNum (Msg (Bool true)) = Throw bad_get
  ∧ Nested_as (T := CustomType) TNum (MkNested (Bool true)) = Throw bad_get
  ∧ tag_of (Str "X" : Item (T := CustomType)) = TStr
  ∧ ∃ p : string, (Str "X" : Item (T := CustomType)) = Str p
                  ∧ Message_as (T := CustomType) TStr (Msg (Str "X")) = Ok p
                  ∧ Nested_as (T := CustomType) TStr (MkNested (Str "X")) = Ok p.
Proof.
  assert (tag_of (Bool true : Item (T := CustomType)) ≠ TNum) as Hne by discriminate.
  split; [exact Hne|].
  destruct (proj1 (as_returns_only_the_held_variant (T := CustomType) TNum (Bool true)) Hne)
    as [Hm Hn].
  split; [exact Hm|]. split; [exact Hn|]. split; [reflexivity|].
  exact (proj1 (proj2 (as_returns_only_the_held_variant (T := CustomType) TStr (Str "X")))
               eq_refl).
Defined.

Lemma get_finds_present_keys_only_witness :
  let m : gmap Key (Item (T := CustomType)) :=
    {[ KStr "type" := Str "X"; KInt 7 := Num 3.5 ]} in
  m !! KInt 7 = Some (Num 3.5)
  ∧ Message_get (KInt 7) (Msg (Map m)) = Ok (MkNested (Num 3.5))
  ∧ Nested_get (KInt 7) (MkNested (Map m)) = Ok (MkNested (Num 3.5)).
Proof.
  intros m.
  assert (m !! KInt 7 = Some (Num 3.5)) as Hk by reflexivity.
  split; [exact Hk|].
  exact (proj1 (get_finds_present_keys_only (T := CustomType) (KInt 7) (Map m))
               m (Num 3.5) eq_refl Hk).
Defined.

Lemma primitive_round_trip_on_empty_queue_witness :
  primitive TNum = true
  ∧ push (CustomType_copy true) rvalue ∅ (Num 5.5) (MkQueue None [])
    = Returns (MkQueue None [Num 5.5])
  ∧ pop (MkQueue None [Num 5.5 : Item (T := CustomType)])
    = (Some (Msg (Num 5.5)), MkQueue None [])
  ∧ Message_as (T := CustomType) TNum (Msg (Num 5.5)) = Ok 5.5%float.
Proof.
  split; [reflexivity|].
  destruct (primitive_round_trip_on_empty_queue (CustomType_copy true) None rvalue ∅
              TNum 5.5%float eq_refl) as (Hpush & _ & _ & Hpop & _ & Has).
  split_and!; [exact Hpush | exact Hpop | exact Has].
Defined.





Lemma push_appends_and_pop_removes_front_witness :
  let q : Queue (T := CustomType) := MkQueue None [Str "a"; Num 2] in
  let q' : Queue (T := CustomType) := MkQueue None [Num 2] in
  pop q = (Some (Msg (Str "a")), q')
  ∧ m_queue q = Str "a" :: m_queue q'
  ∧ length (m_queue q) = S (length (m_queue q'))
  ∧ push (CustomType_copy true) rvalue ∅ (Bool true) q'
    = Returns (MkQueue None [Num 2; Bool true])
  ∧ ∃ item,
      apply_visitor (CustomType_copy true) rvalue ∅ (Bool true) = Ok item
      ∧ m_queue (MkQueue None [Num 2; Bool true]) = m_queue q' ++ [item]
      ∧ length (m_queue (MkQueue None [Num 2; Bool true : Item (T := CustomType)]))
        = S (length (m_queue q')).
Proof.
  intros q q'.
  assert (pop q = (Some (Msg (Str "a")), q')) as Hpop by reflexivity.
  split; [exact Hpop|].
  destruct (push_appends_and_pop_removes_front (CustomType_copy true) ∅ (Bool true) q q')
    as (_ & _ & _ & Hfront & _).
  destruct (Hfront (Msg (Str "a")) Hpop) as (Hq & _ & Hlen & _).
  split; [exact Hq|]. split; [exact Hlen|].
  assert (push (CustomType_copy true) rvalue ∅ (Bool true) q'
          = Returns (MkQueue None [Num 2; Bool true])) as Hpush by reflexivity.
  split; [exact Hpush|].
  destruct (push_appends_and_pop_removes_front (CustomType_copy true) ∅ (Bool true) q'
              (MkQueue None [Num 2; Bool true])) as (Hback & _).
  destruct (Hback rvalue Hpush) as (item & Hv & Happ & _ & Hlen' & _).
  exists item. split; [exact Hv|]. split; [exact Happ | exact Hlen'].
Defined.

Lemma push_rvalue_stores_owned_copy_witness :
  let h : gmap addr CustomType := {[ 7%N := CustomType_new 7 ]} in
  let v : Item := Map {[ KStr "temp" := CopyPtr 7%N ]} in
  let q' : Queue := MkQueue None [Map {[ KStr "temp" := Custom (CustomType_new 7) ]}] in
  no_payload v = true
  ∧ push (CustomType_copy true) rvalue h v Queue_new = Returns q'
  ∧ ∃ item,
      CopyVisitor (CustomType_copy true) h v = Ok item
      ∧ m_queue q' = m_queue (Queue_new (T := CustomType)) ++ [item]
      ∧ owned item = true
      ∧ refs item = ∅.
Proof.
  intros h v q'.
  assert (no_payload v = true) as Hnone by reflexivity.
  assert (push (CustomType_copy true) rvalue h v Queue_new = Returns q') as Hpush
    by reflexivity.
  split; [exact Hnone|]. split; [exact Hpush|].
  destruct (proj1 (push_rvalue_stores_owned_copy (CustomType_copy true) h v Queue_new q'
                     Hnone) Hpush)
    as (item & Hv & Hq & Hown & Hrefs & _).
  exists item. split_and!; [exact Hv | exact Hq | exact Hown | exact Hrefs].
Defined.

Lemma call_sequence_conserves_entries_witness :
  let os : list (call (T := CustomType)) :=
    [call_push rvalue ∅ (Num 1); call_pop; call_push_lua ∅ (Bool true);
     call_push_cstr "s"; call_size; call_pop_lua] in
  let q : Queue := MkQueue None [Str "old"] in
  forallb plain (m_queue q) = true
  ∧ forallb call_plain os = true
  ∧ ∃ popped q',
      do_calls (CustomType_copy true) os q = Some (popped, q')
      ∧ popped ++ m_queue q' = m_queue q ++ flat_map pushed os
      ∧ length popped + length (m_queue q')
        = length (m_queue q) + length (flat_map pushed os).
Proof.
  intros os q.
  assert (forallb plain (m_queue q) = true) as Hq by reflexivity.
  assert (forallb call_plain os = true) as Hos by reflexivity.
  split; [exact Hq|]. split; [exact Hos|].
  destruct (call_sequence_conserves_entries (CustomType_copy true) os q Hq Hos)
    as (popped & q' & Hrun & Heq & Hlen & _).
  exists popped, q'. split; [exact Hrun|]. split; [exact Heq | exact Hlen].
Defined.



Lemma visitor_reads_only_referenced_objects_witness :
  let h1 : gmap addr CustomType := {[ 7%N := CustomType_new 7 ]} in
  let h2 : gmap addr CustomType := {[ 7%N := CustomType_new 7; 8%N := CustomType_new 3 ]} in
  let i : Item := Map {[ KStr "temp" := CopyPtr 7%N ]} in
  (∀ p, p ∈ refs i → h1 !! p = h2 !! p)
  ∧ apply_visitor (CustomType_copy true) rvalue h1 i
    = apply_visitor (CustomType_copy true) rvalue h2 i
  ∧ push (CustomType_copy true) rvalue h1 i Queue_new
    = push (CustomType_copy true) rvalue h2 i Queue_new
  ∧ push_lua (CustomType_copy true) h1 i Queue_new
    = push_lua (CustomType_copy true) h2 i Queue_new.
Proof.
  intros h1 h2 i.
  assert (∀ p, p ∈ refs i → h1 !! p = h2 !! p) as Hagree.
  { intros p Hp. assert (refs i = {[ 7%N ]}) as Hrefs by reflexivity.
    rewrite Hrefs in Hp. apply elem_of_singleton in Hp as ->. reflexivity. }
  split; [exact Hagree|].
  exact (visitor_reads_only_referenced_objects (CustomType_copy true) rvalue h1 h2 i
           Queue_new Hagree).
Defined.

Lemma visitor_keeps_shape_and_keys_witness :
  let h : gmap addr CustomType := {[ 7%N := CustomType_new 7 ]} in
  let i : Item := Map {[ KStr "temp" := CopyPtr 7%N; KInt 1 := Num 2 ]} in
  let i' : Item := Map {[ KStr "temp" := Custom (CustomType_new 7); KInt 1 := Num 2 ]} in
  no_payload i = true
  ∧ CopyVisitor (CustomType_copy true) h i = Ok i'
  ∧ tag_of i' = match tag_of i with TCopyPtr => TCustom | t => t end
  ∧ (∀ m m', i = Map m → i' = Map m' → dom m' = dom m)
  ∧ (∀ key_,
       Message_get key_ (Msg i')
       = (n ← Message_get key_ (Msg i);
          item ← CopyVisitor (CustomType_copy true) h (m_pitem n);
          Ok (MkNested item))).
Proof.
  intros h i i'.
  assert (no_payload i = true) as Hnone by reflexivity.
  assert (CopyVisitor (CustomType_copy true) h i = Ok i') as Hi by reflexivity.
  split; [exact Hnone|]. split; [exact Hi|].
  exact (visitor_keeps_shape_and_keys (CustomType_copy true) h i i' Hnone Hi).
Defined.

Lemma push_overloads_agree_iff_witness :
  let h : gmap addr CustomType := {[ 7%N := CustomType_new 7 ]} in
  let i : Item := Map {[ KStr "temp" := CopyPtr 7%N ]} in
  let i' : Item := Map {[ KStr "temp" := Custom (CustomType_new 7) ]} in
  no_payload i = true
  ∧ CopyVisitor (CustomType_copy true) h i = Ok i'
  ∧ tag_of i = TMap
  ∧ owned i = false
  ∧ CopyVisitor_const (CustomType_copy true) h i = Ok i
  ∧ i ≠ i'
  ∧ push (CustomType_copy true) lvalue h i Queue_new = Returns (MkQueue None [i]).
Proof.
  intros h i i'.
  assert (no_payload i = true) as Hnone by reflexivity.
  assert (CopyVisitor (CustomType_copy true) h i = Ok i') as Hi by reflexivity.
  assert (tag_of i = TMap) as Htag by reflexivity.
  assert (owned i = false) as Hown by reflexivity.
  split; [exact Hnone|]. split; [exact Hi|]. split; [exact Htag|]. split; [exact Hown|].
  exact (proj2 (proj2 (proj2 (push_overloads_agree_iff (CustomType_copy true) h i i'
                                Queue_new Hnone Hi)))
               Htag Hown).
Defined.

Lemma chained_get_as_witness :
  let nested : gmap Key (Item (T := CustomType)) := {[ KStr "flag" := Bool true ]} in
  let m : gmap Key (Item (T := CustomType)) :=
    {[ KStr "type" := Str "X"; KStr "nested" := Map nested; KInt 7 := Num 3.5 ]} in
  (∃ m1 m2, Map m = Map m1 ∧ m1 !! KStr "nested" = Some (Map m2)
            ∧ m2 !! KStr "flag" = Some (Bool true))
  ∧ (n1 ← Message_get (KStr "nested") (Msg (Map m));
     n2 ← Nested_get (KStr "flag") n1;
     Nested_as TBool n2) = Ok true.
Proof.
  intros nested m.
  assert (∃ m1 m2, Map m = Map m1 ∧ m1 !! KStr "nested" = Some (Map m2)
                   ∧ m2 !! KStr "flag" = Some (Bool true)) as Hpath.
  { exists m, nested. split; [reflexivity|]. split; reflexivity. }
  split; [exact Hpath|].
  exact (proj2 (proj1 (chained_get_as (T := CustomType) (KStr "nested") (KStr "flag")
                         TBool (Map m)) true) Hpath).
Defined.

Lemma first_queue_pop_needs_an_entry_witness :
  let q := QueueCpp.MkQueue [QueueCpp.Num 5.5; QueueCpp.Str "next"] in
  QueueCpp.size q ≠ 0%Z
  ∧ ∃ front rest,
      QueueCpp.m_queue q = front :: rest
      ∧ QueueCpp.pop q = Ok (QueueCpp.Msg front, QueueCpp.MkQueue rest)
      ∧ QueueCpp.pop_lua q = Ok (front, QueueCpp.MkQueue rest).
Proof.
  intros q.
  assert (QueueCpp.size q ≠ 0%Z) as Hsize by discriminate.
  split; [exact Hsize|].
  destruct (first_queue_pop_needs_an_entry q) as (_ & _ & _ & Hpop & _).
  exact (Hpop Hsize).
Defined.

Lemma first_queue_is_fifo_witness :
  let l := [QueueCpp.Str "a"; QueueCpp.Int 2; QueueCpp.Bool true] in
  let filled :=
    foldl (fun q x => QueueCpp.push_rvalue (QueueCpp.Msg x) q) QueueCpp.Queue_new l in
  QueueCpp.m_queue filled !! 1 = Some (QueueCpp.Int 2)
  ∧ QueueCpp.pop (QueueCpp.MkQueue (drop 1 (QueueCpp.m_queue filled)))
    = Ok (QueueCpp.Msg (QueueCpp.Int 2), QueueCpp.MkQueue (drop 2 (QueueCpp.m_queue filled))).
Proof.
  intros l filled.
  assert (QueueCpp.m_queue filled !! 1 = Some (QueueCpp.Int 2)) as Hk by reflexivity.
  split; [exact Hk|].
  destruct (first_queue_is_fifo l QueueCpp.Queue_new) as (_ & _ & Hpop & _).
  exact (Hpop 1 (QueueCpp.Int 2) Hk).
Defined.


End LuaCppMsg.
